(** * Verification of express-zod-api: client generator, errors and
      the example documentation.

    Sources embedded here:
    - [src/src/errors.ts]: the error classes ([Errors]);
    - [src/src/client.ts]: the [Client] class generating the typed client
      ([Client]);
    - [src/unnamed/part_001]: the generated example documentation in YAML
      ([ExampleDoc]);
    - the schema walker and reference resolver of the documentation
      generator, which are not part of the sources given, are modelled
      from the specification ([Walker]), with the renderer table of the
      document ([WalkerDoc]). *)

From Stdlib Require Import String Ascii List Bool Arith Lia Permutation.
Import ListNotations.
Open Scope list_scope.
Open Scope string_scope.
Set Warnings "-register-all".

(** ** Helpers on strings *)

Definition nl : string := String (ascii_of_nat 10) EmptyString.

(** [String.prototype.toUpperCase] restricted to ASCII input (the methods
    and paths the code passes are ASCII). *)
Definition ascii_upper (c : ascii) : ascii :=
  let n := nat_of_ascii c in
  if ((97 <=? n) && (n <=? 122))%nat then ascii_of_nat (n - 32)%nat else c.

Fixpoint toUpperCase (s : string) : string :=
  match s with
  | EmptyString => EmptyString
  | String c s' => String (ascii_upper c) (toUpperCase s')
  end.

(** [String.prototype.includes] for a substring. *)
Fixpoint str_includes (needle hay : string) : bool :=
  if String.prefix needle hay then true
  else match hay with
       | EmptyString => false
       | String _ hay' => str_includes needle hay'
       end.

(** [Array.prototype.join]. *)
Fixpoint join (sep : string) (l : list string) : string :=
  match l with
  | [] => ""
  | [x] => x
  | x :: xs => x ++ sep ++ join sep xs
  end.

Definition dq : string := String (ascii_of_nat 34) EmptyString.

(** ** HTTP methods ([method.ts]: [Method] and [AuxMethod]) *)

Inductive method : Type := Get | Post | Put | Delete | Patch | Options.

Definition method_str (m : method) : string :=
  match m with
  | Get => "get" | Post => "post" | Put => "put"
  | Delete => "delete" | Patch => "patch" | Options => "options"
  end.

Definition method_eqb (a b : method) : bool :=
  String.eqb (method_str a) (method_str b).

(** ** errors.ts *)
Module Errors.

(** The error classes of [errors.ts]; each carries its final
    [message]. *)
Inductive error : Type :=
| RoutingError (message : string)
| DocumentationError (message : string)
| IOSchemaError (message : string)
| OutputValidationError (message : string)
| InputValidationError (message : string)
| ResultHandlerError (message : string)
| MissingPeerError (message : string).

(** The overridden [name] field of each class. *)
Definition name (e : error) : string :=
  match e with
  | RoutingError _ => "RoutingError"
  | DocumentationError _ => "DocumentationError"
  | IOSchemaError _ => "IOSchemaError"
  | OutputValidationError _ => "OutputValidationError"
  | InputValidationError _ => "InputValidationError"
  | ResultHandlerError _ => "ResultHandlerError"
  | MissingPeerError _ => "MissingPeerError"
  end.

Definition message (e : error) : string :=
  match e with
  | RoutingError m | DocumentationError m | IOSchemaError m
  | OutputValidationError m | InputValidationError m
  | ResultHandlerError m | MissingPeerError m => m
  end.

(** The constructor of [DocumentationError]: its argument is
    [{ message } & Pick<OpenAPIContext, "path" | "method" | "isResponse">]. *)
Definition newDocumentationError (message : string) (method : method)
           (path : string) (isResponse : bool) : error :=
  let finalMessage :=
    message ++ nl ++ "Caused by " ++
    (if isResponse then "response" else "input") ++
    " schema of an Endpoint assigned to " ++
    toUpperCase (method_str method) ++ " method of " ++ path ++ " path." in
  DocumentationError finalMessage.

(** The constructor of [MissingPeerError]: one module or several. *)
Inductive peer : Type := PeerOne (m : string) | PeerMany (ms : list string).

Definition newMissingPeerError (module : peer) : error :=
  MissingPeerError
    ("Missing " ++
     (match module with
      | PeerMany _ => "one of the following peer dependencies"
      | PeerOne _ => "peer dependency" end) ++ ": " ++
     (match module with
      | PeerMany ms => join " | " ms
      | PeerOne m => m end) ++ ". Please install it to use the feature.").

End Errors.

(** ** client.ts *)
Module Client.

(** *** The schemas handed to [zodToTs] (a subset of zod's kinds). *)
Inductive zschema : Type :=
| ZString
| ZNumber
| ZBoolean
| ZLiteral (value : string)
| ZObject (shape : list (string * zschema))
| ZArray (element : zschema)
| ZUnion (options : list zschema)
| ZOptional (inner : zschema)
| ZNativeEnum (enumName : string) (members : list (string * string)).

(** [schema.or(other)] of zod: a two-member union. *)
Definition or_ (a b : zschema) : zschema := ZUnion [a; b].

(** *** TypeScript type nodes and declarations built with [ts.factory]. *)
Inductive tnode : Type :=
| TString
| TNumber
| TBoolean
| TUndefined
| TAny
| TLiteral (value : string)
| TTypeLit (members : list (string * bool * tnode))  (** name, optional?, type *)
| TArray (element : tnode)
| TUnion (types : list tnode)
| TRef (name : string)
| TTemplate (parts : list string).                  (** [makeTemplate] *)

Inductive decl : Type :=
| DTypeAlias (exported : bool) (name : string) (type : tnode)
| DEnum (name : string) (members : list (string * string))
| DInterface (name : string) (extendsRecordOf : string)
             (props : list (string * string))      (** [makeQuotedProp] *)
| DConst (name : string) (props : list (string * bool))  (** object literal *)
| DProvider (name methodName pathName inputName responseName : string)
| DClass (name providerName comment : string).

(** *** [zodToTs] of the [zod-to-ts] package with
    [resolveNativeEnums: true]: the type node and the store of native
    enum declarations it produced.  An optional member is marked with a
    question token and keeps the optional's own type [T | undefined]. *)
Fixpoint zodToTs (z : zschema) : tnode * list decl :=
  match z with
  | ZString => (TString, [])
  | ZNumber => (TNumber, [])
  | ZBoolean => (TBoolean, [])
  | ZLiteral v => (TLiteral v, [])
  | ZObject shape =>
      let fix members (l : list (string * zschema))
          : list (string * bool * tnode) * list decl :=
        match l with
        | [] => ([], [])
        | (k, v) :: rest =>
            let '(n, st) :=
              match v with
              | ZOptional _ => let '(n, st) := zodToTs v in ((k, true, n), st)
              | _ => let '(n, st) := zodToTs v in ((k, false, n), st)
              end in
            let '(ns, sts) := members rest in (n :: ns, (st ++ sts)%list)
        end in
      let '(ms, st) := members shape in (TTypeLit ms, st)
  | ZArray e => let '(n, st) := zodToTs e in (TArray n, st)
  | ZUnion opts =>
      let fix go (l : list zschema) : list tnode * list decl :=
        match l with
        | [] => ([], [])
        | o :: rest =>
            let '(n, st) := zodToTs o in
            let '(ns, sts) := go rest in (n :: ns, (st ++ sts)%list)
        end in
      let '(ns, st) := go opts in (TUnion ns, st)
  | ZOptional i => let '(n, st) := zodToTs i in (TUnion [n; TUndefined], st)
  | ZNativeEnum nm ms => (TRef nm, [DEnum nm ms])
  end.

(** Modelled from the spec: [cleanId] of [client-helpers.ts] (not among
    the sources), a valid identifier made of the capitalised alphanumeric
    pieces of the method, the path and the suffix. *)
Definition is_alnum (c : ascii) : bool :=
  let n := nat_of_ascii c in
  ((48 <=? n) && (n <=? 57) || (65 <=? n) && (n <=? 90)
   || (97 <=? n) && (n <=? 122))%nat.

Fixpoint pieces (s : string) : list string :=
  match s with
  | EmptyString => [""]
  | String c s' =>
      let ps := pieces s' in
      if is_alnum c then
        match ps with
        | p :: r => String c p :: r
        | [] => [String c ""]
        end
      else "" :: ps
  end.

Definition capitalize (p : string) : string :=
  match p with
  | EmptyString => EmptyString
  | String c r => String (ascii_upper c) r
  end.

Definition cleanId (path method suffix : string) : string :=
  String.concat "" (map capitalize (flat_map pieces [method; path; suffix])).

(** *** Endpoints as [Client] sees them. *)
Record endpoint : Type := mkEndpoint {
  getInputSchema : zschema;
  getPositiveResponseSchema : zschema;
  getNegativeResponseSchema : zschema;
  getPositiveMimeTypes : list string;
  getMethods : list method
}.

Definition mimeJson : string := "application/json".

(** One call of [endpointCb]: [(endpoint, path, method)]. *)
Definition entry : Type := (endpoint * string * method)%type.

(** The value type of the [Registry] interface. *)
Record reg_entry : Type := mkReg { in_ : string; out : string; isJson : bool }.

(** A JS object used as a dictionary: insertion-ordered keys; assigning an
    existing key keeps its position and replaces its value. *)
Fixpoint obj_set {V} (k : string) (v : V) (o : list (string * V))
  : list (string * V) :=
  match o with
  | [] => [(k, v)]
  | (k', v') :: o' =>
      if String.eqb k k' then (k, v) :: o' else (k', v') :: obj_set k v o'
  end.

(** Reading [o[k]]. *)
Definition lookup {V} (k : string) (o : list (string * V)) : option (string * V) :=
  find (fun kv => String.eqb (fst kv) k) o.

(** The instance fields of [Client]. *)
Record client : Type := mkClient {
  agg : list decl;
  registry : list (string * reg_entry);
  paths : list string
}.

Definition fresh : client := mkClient [] [] [].

Definition methodPath (m : method) (path : string) : string :=
  method_str m ++ " " ++ path.

(** The [endpointCb] passed to [routingCycle]. *)
Definition endpointCb (this : client) (e : entry) : client :=
  let '(endpoint, path, method) := e in
  let inputId := cleanId path (method_str method) "input" in
  let responseId := cleanId path (method_str method) "response" in
  let input := zodToTs (getInputSchema endpoint) in
  let response := zodToTs (or_ (getPositiveResponseSchema endpoint)
                                (getNegativeResponseSchema endpoint)) in
  let inputAlias := DTypeAlias false inputId (fst input) in
  let responseAlias := DTypeAlias false responseId (fst response) in
  let agg1 := (agg this ++ snd input ++ snd response)%list in
  let agg2 := (agg1 ++ [inputAlias])%list in
  let agg3 := (agg2 ++ [responseAlias])%list in
  if negb (method_eqb method Options) then
    mkClient agg3
      (obj_set (methodPath method path)
         (mkReg inputId responseId
            (existsb (String.eqb mimeJson) (getPositiveMimeTypes endpoint)))
         (registry this))
      (paths this ++ [path])%list
  else mkClient agg3 (registry this) (paths this).

(** The methods listed by [methodNode]. *)
Definition methodList : list method := [Get; Post; Put; Delete; Patch].

Definition clientComment : string := "createDefaultProvider".

(** The declarations pushed after [routingCycle] returned. *)
Definition finalNodes (this : client) : list decl :=
  let pathNode := DTypeAlias true "Path" (TUnion (map TLiteral (paths this))) in
  let methodNode :=
    DTypeAlias true "Method" (TUnion (map (fun m => TLiteral (method_str m)) methodList)) in
  let methodPathNode := DTypeAlias true "MethodPath" (TTemplate ["Method"; "Path"]) in
  let inputNode :=
    DInterface "Input" "MethodPath"
      (map (fun '(k, v) => (k, in_ v)) (registry this)) in
  let responseNode :=
    DInterface "Response" "MethodPath"
      (map (fun '(k, v) => (k, out v)) (registry this)) in
  let jsonEndpointsNode :=
    DConst "jsonEndpoints"
      (map (fun k => (dq ++ k ++ dq, true))
         (filter (fun k => match lookup k (registry this) with
                           | Some (_, v) => isJson v
                           | None => false end)
            (map fst (registry this)))) in
  let providerNode := DProvider "Provider" "Method" "Path" "Input" "Response" in
  let clientNode := DClass "ExpressZodAPIClient" "Provider" clientComment in
  [pathNode; methodNode; methodPathNode; inputNode; responseNode;
   jsonEndpointsNode; providerNode; clientNode].

(** The constructor body, given the sequence of [endpointCb] calls that
    [routingCycle] makes. *)
Definition build (entries : list entry) : client :=
  let this := fold_left endpointCb entries fresh in
  mkClient (agg this ++ finalNodes this)%list (registry this) (paths this).

End Client.

(** ** Route keys *)
Module Routing.
Import Client.

(** The (method, path) pair a route entry resolves to. *)
Definition key (e : entry) : string * string :=
  let '(_, path, m) := e in (method_str m, path).

End Routing.

(** Reading the generated artifact: the last type alias, interface or
    constant of a given name among the pushed nodes. *)
Module Artifact.
Import Client.

Fixpoint lastAlias (n : string) (ds : list decl) : option tnode :=
  match ds with
  | [] => None
  | DTypeAlias _ n' t :: ds' =>
      match lastAlias n ds' with
      | Some t' => Some t'
      | None => if String.eqb n n' then Some t else None
      end
  | _ :: ds' => lastAlias n ds'
  end.

Fixpoint lastInterface (n : string) (ds : list decl) : option (list (string * string)) :=
  match ds with
  | [] => None
  | DInterface n' _ ps :: ds' =>
      match lastInterface n ds' with
      | Some p => Some p
      | None => if String.eqb n n' then Some ps else None
      end
  | _ :: ds' => lastInterface n ds'
  end.

Fixpoint lastConst (n : string) (ds : list decl) : option (list (string * bool)) :=
  match ds with
  | [] => None
  | DConst n' ps :: ds' =>
      match lastConst n ds' with
      | Some p => Some p
      | None => if String.eqb n n' then Some ps else None
      end
  | _ :: ds' => lastConst n ds'
  end.

Definition methodUnion (c : client) := lastAlias "Method" (agg c).
Definition pathUnion (c : client) := lastAlias "Path" (agg c).
Definition inputInterface (c : client) := lastInterface "Input" (agg c).
Definition responseInterface (c : client) := lastInterface "Response" (agg c).
Definition jsonEndpoints (c : client) := lastConst "jsonEndpoints" (agg c).

End Artifact.

(** ** The generated example documentation ([src/unnamed/part_001])

    The YAML document the documentation generator produced for the example
    API, transcribed node by node: the operation [GET /v1/user/retrieve]
    and [components.schemas].  The other operations, which hold no
    reference to a component, are left out. *)
Module ExampleDoc.

(** YAML nodes; numbers are kept as their literal text. *)
Inductive yaml : Type :=
| YStr (s : string)
| YNum (literal : string)
| YBool (b : bool)
| YSeq (items : list yaml)
| YMap (entries : list (string * yaml))
| YNull.

Inductive selector : Type := K (key : string) | I (index : nat).

Fixpoint assoc (k : string) (kvs : list (string * yaml)) : option yaml :=
  match kvs with
  | [] => None
  | (k', v) :: kvs' => if String.eqb k k' then Some v else assoc k kvs'
  end.

Fixpoint at_ (sel : list selector) (y : yaml) : option yaml :=
  match sel with
  | [] => Some y
  | K k :: sel' =>
      match y with
      | YMap kvs => match assoc k kvs with Some v => at_ sel' v | None => None end
      | _ => None
      end
  | I n :: sel' =>
      match y with
      | YSeq items => match nth_error items n with Some v => at_ sel' v | None => None end
      | _ => None
      end
  end.

Definition componentName : string := "2048581c137c5b2130eb860e3ae37da196dfc25b".
Definition componentRef : string := "#/components/schemas/2048581c137c5b2130eb860e3ae37da196dfc25b".

(** Lines 7-91. *)
Definition retrieveGet : yaml :=
  YMap [
    ("operationId", YStr "GetV1UserRetrieve");
    ("responses", YMap [
      ("200", YMap [
        ("description", YStr "GET /v1/user/retrieve Successful response");
        ("content", YMap [
          ("application/json", YMap [
            ("schema", YMap [
              ("type", YStr "object");
              ("properties", YMap [
                ("status", YMap [("type", YStr "string"); ("enum", YSeq [YStr "success"])]);
                ("data", YMap [
                  ("type", YStr "object");
                  ("properties", YMap [
                    ("id", YMap [
                      ("type", YStr "integer"); ("format", YStr "int64");
                      ("minimum", YNum "0"); ("exclusiveMinimum", YBool false);
                      ("maximum", YNum "9007199254740991"); ("exclusiveMaximum", YBool false)]);
                    ("name", YMap [("type", YStr "string")]);
                    ("features", YMap [
                      ("type", YStr "array");
                      ("items", YMap [
                        ("type", YStr "object");
                        ("properties", YMap [
                          ("title", YMap [("type", YStr "string")]);
                          ("features", YMap [("$ref", YStr "#/components/schemas/2048581c137c5b2130eb860e3ae37da196dfc25b")])]);
                        ("required", YSeq [YStr "title"; YStr "features"])])])]);
                  ("required", YSeq [YStr "id"; YStr "name"; YStr "features"])])]);
              ("required", YSeq [YStr "status"; YStr "data"])])])])]);
      ("400", YMap [
        ("description", YStr "GET /v1/user/retrieve Error response");
        ("content", YMap [
          ("application/json", YMap [
            ("schema", YMap [
              ("type", YStr "object");
              ("properties", YMap [
                ("status", YMap [("type", YStr "string"); ("enum", YSeq [YStr "error"])]);
                ("error", YMap [
                  ("type", YStr "object");
                  ("properties", YMap [("message", YMap [("type", YStr "string")])]);
                  ("required", YSeq [YStr "message"])])]);
              ("required", YSeq [YStr "status"; YStr "error"])]);
            ("examples", YMap [
              ("example1", YMap [
                ("value", YMap [
                  ("status", YStr "error");
                  ("error", YMap [("message", YStr "Sample error message")])])])])])])])]);
    ("description", YStr "Example user retrieval endpoint.");
    ("summary", YStr "Retrieves the user.");
    ("tags", YSeq [YStr "users"]);
    ("parameters", YSeq [
      YMap [
        ("name", YStr "id");
        ("in", YStr "query");
        ("required", YBool true);
        ("description", YStr "a numeric string containing the id of the user");
        ("schema", YMap [
          ("type", YStr "string");
          ("pattern", YStr "/\d+/");
          ("description", YStr "a numeric string containing the id of the user")])]])].

(** Lines 461-474. *)
Definition schemas : yaml :=
  YMap [
    ("2048581c137c5b2130eb860e3ae37da196dfc25b", YMap [
      ("type", YStr "array");
      ("items", YMap [
        ("type", YStr "object");
        ("properties", YMap [
          ("title", YMap [("type", YStr "string")]);
          ("features", YMap [("$ref", YStr "#/components/schemas/2048581c137c5b2130eb860e3ae37da196dfc25b")])]);
        ("required", YSeq [YStr "title"; YStr "features"])])])].

Definition document : yaml :=
  YMap [
    ("openapi", YStr "3.0.0");
    ("info", YMap [("title", YStr "Example API"); ("version", YStr "15.2.0")]);
    ("paths", YMap [("/v1/user/retrieve", YMap [("get", retrieveGet)])]);
    ("components", YMap [("schemas", schemas)])].

Definition componentNames (d : yaml) : list string :=
  match at_ [K "components"; K "schemas"] d with
  | Some (YMap kvs) => map fst kvs
  | _ => []
  end.




(** Every [$ref] target in a node, in document order. *)
Fixpoint refs (y : yaml) : list string :=
  match y with
  | YMap kvs =>
      flat_map (fun kv => match kv with
                          | ("$ref", YStr r) => [r]
                          | (_, v) => refs v
                          end) kvs
  | YSeq items => flat_map refs items
  | _ => []
  end.

End ExampleDoc.

(** ** The schema walker and its reference resolver

    Modelled from the spec: the Schema Walker and the Reference Resolver of
    the documentation generator ([documentation-helpers.ts], not among the
    sources), as sections 3, 4.1 and 4.2 of the specification describe
    them.  A schema graph is a tree of [node]s whose [NReference id] leaves
    point, through an arena, to the node of identity [id], so cycles go
    through the arena.  The walker is parameterised by a renderer table
    (one function per variant, given the context and the children's
    fragments) and by the resolver's naming function [reserve].  It
    unwraps [Optional], [Nullable] and [Default] into the context, the
    parent object receiving the field's wrappers as metadata; it fails with
    [UnsupportedSchemaError] and the path on a kind outside the table, and
    passes on any error a renderer raises.  At a reference it
    - returns a reference to the registered name when [id] was already
      fully visited (shared reuse);
    - returns a reference to the reserved name when [id] is being visited
      higher in the call stack (a cycle), unless no Object or Array was
      crossed since that visit began, which is an [UnrenderableCycleError];
    - otherwise reserves a name, renders the target with [id] in flight,
      registers the component with that fully rendered body and returns
      the body itself: the first occurrence is expanded.
    Each reference visit is recorded in the run's trace. *)
Module Walker.

(** Enum and default literals; numbers are kept as their literal text. *)
Inductive literal : Type :=
| LString (s : string)
| LNumber (text : string)
| LBoolean (b : bool)
| LNull.

Inductive node : Type :=
| NPrimitive (kind : string) (constraints : list (string * literal))
| NObject (fields : list (string * node)) (required : list string)
| NArray (element : node) (minItems maxItems : option nat)
| NUnion (options : list node)
| NIntersection (members : list node)
| NEnum (values : list literal)
| NOptional (inner : node)
| NNullable (inner : node)
| NDefault (inner : node) (value : literal)
| NTransformed (inner : node) (outputKind : string)
| NReference (identity : nat)
| NUnknown (kind : string).

(** A step of the path from the root: an object field, an array's
    element, the i-th member of a union or an intersection. *)
Inductive segment : Type :=
| SField (name : string)
| SItems
| SIndex (i : nat).

(** The effect of the wrappers around a node. *)
Record meta : Type := mkMeta {
  optional : bool;
  nullable : bool;
  default : option literal
}.

Definition noMeta : meta := mkMeta false false None.

Definition withOptional (m : meta) : meta := mkMeta true (nullable m) (default m).
Definition withNullable (m : meta) : meta := mkMeta (optional m) true (default m).
Definition withDefault (v : literal) (m : meta) : meta := mkMeta (optional m) (nullable m) (Some v).

(** The wrappers of a field, outermost first. *)
Fixpoint peel (m : meta) (n : node) : meta :=
  match n with
  | NOptional i => peel (withOptional m) i
  | NNullable i => peel (withNullable m) i
  | NDefault i v => peel (withDefault v m) i
  | _ => m
  end.

Definition fieldMeta (n : node) : meta := peel noMeta n.

(** The context handed to a renderer: the path (innermost step first), the
    naming hint (the nearest field name, or the endpoint's name at the
    root) and the wrappers peeled so far. *)
Record context : Type := mkContext {
  revPath : list segment;
  hint : string;
  wrappers : meta
}.

Definition fieldCtx (ctx : context) (k : string) : context :=
  mkContext (SField k :: revPath ctx) k noMeta.
Definition itemsCtx (ctx : context) : context :=
  mkContext (SItems :: revPath ctx) (hint ctx) noMeta.
Definition memberCtx (ctx : context) (i : nat) : context :=
  mkContext (SIndex i :: revPath ctx) (hint ctx) noMeta.
Definition wrapCtx (f : meta -> meta) (ctx : context) : context :=
  mkContext (revPath ctx) (hint ctx) (f (wrappers ctx)).
Definition innerCtx (ctx : context) : context :=
  mkContext (revPath ctx) (hint ctx) noMeta.

(** The renderer table: fragments of type [F], renderer errors of type [E]. *)
Record renderers (F E : Type) : Type := mkRenderers {
  rPrimitive : context -> string -> list (string * literal) -> E + F;
  rObject : context -> list (string * meta * F) -> list string -> E + F;
  rArray : context -> F -> option nat -> option nat -> E + F;
  rUnion : context -> list F -> E + F;
  rIntersection : context -> list F -> E + F;
  rEnum : context -> list literal -> E + F;
  rTransformed : context -> F -> string -> E + F;
  rReference : context -> string -> E + F
}.
Arguments mkRenderers {F E}.
Arguments rPrimitive {F E}.
Arguments rObject {F E}.
Arguments rArray {F E}.
Arguments rUnion {F E}.
Arguments rIntersection {F E}.
Arguments rEnum {F E}.
Arguments rTransformed {F E}.
Arguments rReference {F E}.

Inductive outcome (E A : Type) : Type :=
| Ok (a : A)
| RenderError (e : E)
| UnsupportedSchemaError (path : list segment) (kind : string)
| UnrenderableCycleError (identity : nat)
| UnresolvedReference (identity : nat)
| OutOfFuel.
Arguments Ok {E A} a.
Arguments RenderError {E A} e.
Arguments UnsupportedSchemaError {E A} path kind.
Arguments UnrenderableCycleError {E A} identity.
Arguments UnresolvedReference {E A} identity.
Arguments OutOfFuel {E A}.

Definition bindO {E A B} (o : outcome E A) (k : A -> outcome E B) : outcome E B :=
  match o with
  | Ok a => k a
  | RenderError e => RenderError e
  | UnsupportedSchemaError p kd => UnsupportedSchemaError p kd
  | UnrenderableCycleError i => UnrenderableCycleError i
  | UnresolvedReference i => UnresolvedReference i
  | OutOfFuel => OutOfFuel
  end.

(** The visits of references: the first occurrence of an identity,
    expanded under its reserved name, or a later one, rendered as a
    reference to a name. *)
Inductive event : Type :=
| Expanded (identity : nat) (name : string)
| Referenced (identity : nat) (name : string).

(** The registry of one run: the name counter, the registered components
    (identity, name, body) in registration order, and the trace. *)
Record wstate (F : Type) : Type := mkState {
  counter : nat;
  components : list (nat * (string * F));
  trace : list event
}.
Arguments mkState {F}.
Arguments counter {F}.
Arguments components {F}.
Arguments trace {F}.

Definition initial {F} : wstate F := mkState 0 [] [].

Definition arena : Type := list (nat * node).

Fixpoint lookupN {A} (id : nat) (l : list (nat * A)) : option A :=
  match l with
  | [] => None
  | (id', a) :: l' => if Nat.eqb id id' then Some a else lookupN id l'
  end.

Definition names {F} (cs : list (nat * (string * F))) : list string :=
  map (fun c => fst (snd c)) cs.
Definition snames (s : list (nat * (string * nat))) : list string :=
  map (fun e => fst (snd e)) s.

Fixpoint seqFields {E F} (f : string -> node -> wstate F -> outcome E (F * wstate F))
         (fs : list (string * node)) (st : wstate F)
  : outcome E (list (string * meta * F) * wstate F) :=
  match fs with
  | [] => Ok ([], st)
  | (k, v) :: fs' =>
      bindO (f k v st) (fun r1 =>
      bindO (seqFields f fs' (snd r1)) (fun r2 =>
      Ok ((k, fieldMeta v, fst r1) :: fst r2, snd r2)))
  end.

Fixpoint seqList {E F} (f : nat -> node -> wstate F -> outcome E (F * wstate F))
         (i : nat) (ns : list node) (st : wstate F) : outcome E (list F * wstate F) :=
  match ns with
  | [] => Ok ([], st)
  | v :: ns' =>
      bindO (f i v st) (fun r1 =>
      bindO (seqList f (S i) ns' (snd r1)) (fun r2 =>
      Ok (fst r1 :: fst r2, snd r2)))
  end.

Section Walk.
Context {F E : Type} (R : renderers F E) (reserve : list string -> string -> nat -> string).

Definition lift (x : E + F) (st : wstate F) : outcome E (F * wstate F) :=
  match x with
  | inl e => RenderError e
  | inr f => Ok (f, st)
  end.

Definition refTo (ctx : context) (id : nat) (name : string) (st : wstate F)
  : outcome E (F * wstate F) :=
  lift (rReference R ctx name)
       (mkState (counter st) (components st) (trace st ++ [Referenced id name])).

(** [stack]: the identities in flight, with their reserved name and the
    number [b] of Object/Array boundaries crossed when their visit began. *)
Fixpoint render (fuel : nat) (ar : arena) (stack : list (nat * (string * nat)))
         (b : nat) (ctx : context) (n : node) (st : wstate F) {struct fuel}
  : outcome E (F * wstate F) :=
  let fix go (b : nat) (ctx : context) (n : node) (st : wstate F) {struct n}
      : outcome E (F * wstate F) :=
    match n with
    | NPrimitive k cs => lift (rPrimitive R ctx k cs) st
    | NObject fs req =>
        bindO (seqFields (fun k v => go (S b) (fieldCtx ctx k) v) fs st)
          (fun r => lift (rObject R ctx (fst r) req) (snd r))
    | NArray e mn mx =>
        bindO (go (S b) (itemsCtx ctx) e st)
          (fun r => lift (rArray R ctx (fst r) mn mx) (snd r))
    | NUnion os =>
        bindO (seqList (fun i o => go b (memberCtx ctx i) o) 0 os st)
          (fun r => lift (rUnion R ctx (fst r)) (snd r))
    | NIntersection ms =>
        bindO (seqList (fun i o => go b (memberCtx ctx i) o) 0 ms st)
          (fun r => lift (rIntersection R ctx (fst r)) (snd r))
    | NEnum vs => lift (rEnum R ctx vs) st
    | NOptional i => go b (wrapCtx withOptional ctx) i st
    | NNullable i => go b (wrapCtx withNullable ctx) i st
    | NDefault i v => go b (wrapCtx (withDefault v) ctx) i st
    | NTransformed i k =>
        bindO (go b (innerCtx ctx) i st)
          (fun r => lift (rTransformed R ctx (fst r) k) (snd r))
    | NReference id =>
        match lookupN id (components st) with
        | Some (name, _) => refTo ctx id name st
        | None =>
            match lookupN id stack with
            | Some (name, bid) =>
                if Nat.eqb bid b then UnrenderableCycleError id else refTo ctx id name st
            | None =>
                match fuel with
                | 0 => OutOfFuel
                | S fuel' =>
                    match lookupN id ar with
                    | None => UnresolvedReference id
                    | Some target =>
                        let name := reserve (names (components st) ++ snames stack)
                                            (hint ctx) (counter st) in
                        let st1 := mkState (S (counter st)) (components st)
                                           (trace st ++ [Expanded id name]) in
                        bindO (render fuel' ar ((id, (name, b)) :: stack) b ctx target st1)
                          (fun r =>
                             let st2 := snd r in
                             Ok (fst r, mkState (counter st2)
                                                (components st2 ++ [(id, (name, fst r))])
                                                (trace st2)))
                    end
                end
            end
        end
    | NUnknown k => UnsupportedSchemaError (rev (revPath ctx)) k
    end in
  go b ctx n st.

(** One rendering run over an arena: fresh registry, nothing in flight,
    the root's hint; the fuel is the number of identities, each expanded
    at most once along any path. *)
Definition renderRoot (ar : arena) (hint0 : string) (root : node) : outcome E (F * wstate F) :=
  render (length ar) ar [] 0 (mkContext [] hint0 noMeta) root initial.

End Walk.

(** References occurring in a node, and those reachable without crossing
    an Object or Array boundary. *)
Fixpoint refsOf (n : node) : list nat :=
  match n with
  | NObject fs _ => flat_map (fun kv => refsOf (snd kv)) fs
  | NArray e _ _ => refsOf e
  | NUnion os | NIntersection os => flat_map refsOf os
  | NOptional i | NNullable i | NDefault i _ | NTransformed i _ => refsOf i
  | NReference id => [id]
  | NPrimitive _ _ | NEnum _ | NUnknown _ => []
  end.

Fixpoint unguarded (n : node) : list nat :=
  match n with
  | NUnion os | NIntersection os => flat_map unguarded os
  | NOptional i | NNullable i | NDefault i _ | NTransformed i _ => unguarded i
  | NReference id => [id]
  | NPrimitive _ _ | NObject _ _ | NArray _ _ _ | NEnum _ | NUnknown _ => []
  end.

(** The identities the trace shows expanded, in order. *)
Fixpoint expandedIds (t : list event) : list nat :=
  match t with
  | [] => []
  | Expanded id _ :: t' => id :: expandedIds t'
  | Referenced _ _ :: t' => expandedIds t'
  end.

(** The (identity, name) pairs of the registered components. *)
Definition pairsOf {F} (cs : list (nat * (string * F))) : list (nat * string) :=
  map (fun c => (fst c, fst (snd c))) cs.

End Walker.

(** The walker's renderer table for the document (sections 4.1 and 6 of
    the specification): fragments are the YAML nodes of [ExampleDoc],
    wrappers become [nullable] and [default] keys, an Optional or
    defaulted field leaves the [required] set, an intersection of objects
    is merged field by field, failing with [IntersectionConflictError] on
    a field declared with two different kinds, and a reference points
    into [#/components/schemas/]. *)
Module WalkerDoc.
Import ExampleDoc Walker.

Inductive docError : Type :=
| IntersectionConflictError (field kind1 kind2 : string).

Fixpoint uintText (u : Decimal.uint) : string :=
  match u with
  | Decimal.Nil => ""
  | Decimal.D0 u' => "0" ++ uintText u'
  | Decimal.D1 u' => "1" ++ uintText u'
  | Decimal.D2 u' => "2" ++ uintText u'
  | Decimal.D3 u' => "3" ++ uintText u'
  | Decimal.D4 u' => "4" ++ uintText u'
  | Decimal.D5 u' => "5" ++ uintText u'
  | Decimal.D6 u' => "6" ++ uintText u'
  | Decimal.D7 u' => "7" ++ uintText u'
  | Decimal.D8 u' => "8" ++ uintText u'
  | Decimal.D9 u' => "9" ++ uintText u'
  end.

(** Decimal spelling of a number. *)
Definition natText (n : nat) : string := uintText (Nat.to_uint n).

Definition litYaml (v : literal) : yaml :=
  match v with
  | LString s => YStr s
  | LNumber t => YNum t
  | LBoolean b => YBool b
  | LNull => YNull
  end.

Definition annotate (ctx : context) (y : yaml) : yaml :=
  match y with
  | YMap kvs =>
      YMap (kvs ++ (if nullable (wrappers ctx) then [("nullable", YBool true)] else [])
                ++ match default (wrappers ctx) with
                   | Some v => [("default", litYaml v)]
                   | None => []
                   end)%list
  | _ => y
  end.

Definition optNum (key : string) (o : option nat) : list (string * yaml) :=
  match o with
  | Some n => [(key, YNum (natText n))]
  | None => []
  end.

Definition objectYaml (ps : list (string * yaml)) (req : list yaml) : yaml :=
  YMap [("type", YStr "object"); ("properties", YMap ps); ("required", YSeq req)].

(** The fields declared required that are neither optional nor defaulted. *)
Definition requiredOf (ps : list (string * meta * yaml)) (req : list string) : list string :=
  map (fun p => fst (fst p))
      (filter (fun p => existsb (String.eqb (fst (fst p))) req
                        && negb (optional (snd (fst p)))
                        && match default (snd (fst p)) with None => true | Some _ => false end)
              ps).

Definition kindOf (y : yaml) : string :=
  match y with
  | YMap kvs =>
      match assoc "type" kvs with
      | Some (YStr t) => t
      | _ => match assoc "$ref" kvs with Some _ => "$ref" | None => "schema" end
      end
  | _ => "schema"
  end.

Fixpoint mergeProps (acc ps : list (string * yaml)) : docError + list (string * yaml) :=
  match ps with
  | [] => inr acc
  | (k, y) :: ps' =>
      match assoc k acc with
      | Some y' =>
          if String.eqb (kindOf y') (kindOf y) then mergeProps acc ps'
          else inl (IntersectionConflictError k (kindOf y') (kindOf y))
      | None => mergeProps (acc ++ [(k, y)])%list ps'
      end
  end.

Definition objectParts (y : yaml) : option (list (string * yaml) * list yaml) :=
  match y with
  | YMap kvs =>
      match assoc "type" kvs, assoc "properties" kvs, assoc "required" kvs with
      | Some (YStr t), Some (YMap ps), Some (YSeq req) =>
          if String.eqb t "object" then Some (ps, req) else None
      | _, _, _ => None
      end
  | _ => None
  end.

(** Merging the members of an intersection: [None] when one of them is not
    an object. *)
Fixpoint mergeMembers (ps : list (string * yaml)) (req : list yaml) (ys : list yaml)
  : option (docError + (list (string * yaml) * list yaml)) :=
  match ys with
  | [] => Some (inr (ps, req))
  | y :: ys' =>
      match objectParts y with
      | None => None
      | Some (ps', req') =>
          match mergeProps ps ps' with
          | inl e => Some (inl e)
          | inr ps'' => mergeMembers ps'' (req ++ req')%list ys'
          end
      end
  end.

Definition isLString (v : literal) : bool := match v with LString _ => true | _ => false end.
Definition isLNumber (v : literal) : bool := match v with LNumber _ => true | _ => false end.

Definition enumType (vs : list literal) : list (string * yaml) :=
  if forallb isLString vs then [("type", YStr "string")]
  else if forallb isLNumber vs then [("type", YStr "number")]
  else [].

Definition docRenderers : renderers yaml docError :=
  mkRenderers
    (fun ctx k cs =>
       inr (annotate ctx (YMap (("type", YStr k) :: map (fun kv => (fst kv, litYaml (snd kv))) cs))))
    (fun ctx ps req =>
       inr (annotate ctx (objectYaml (map (fun p => (fst (fst p), snd p)) ps)
                                     (map YStr (requiredOf ps req)))))
    (fun ctx y mn mx =>
       inr (annotate ctx (YMap ([("type", YStr "array"); ("items", y)]
                                  ++ optNum "minItems" mn ++ optNum "maxItems" mx)%list)))
    (fun ctx ys => inr (annotate ctx (YMap [("oneOf", YSeq ys)])))
    (fun ctx ys =>
       match mergeMembers [] [] ys with
       | None => inr (annotate ctx (YMap [("allOf", YSeq ys)]))
       | Some (inl e) => inl e
       | Some (inr (ps, req)) => inr (annotate ctx (objectYaml ps req))
       end)
    (fun ctx vs => inr (annotate ctx (YMap (enumType vs ++ [("enum", YSeq (map litYaml vs))])%list)))
    (fun ctx y _ => inr (annotate ctx y))
    (fun ctx name => inr (annotate ctx (YMap [("$ref", YStr ("#/components/schemas/" ++ name))]))).

(** The naming scheme of section 4.2: the hint followed by the counter,
    with a suffix of underscores, longer than any name in use, on a
    collision. *)
Fixpoint underscores (n : nat) : string :=
  match n with
  | 0 => ""
  | S n' => String (ascii_of_nat 95) (underscores n')
  end.

Definition maxLength (used : list string) : nat :=
  fold_right (fun s m => Nat.max (String.length s) m) 0 used.

Definition specReserve (used : list string) (hint : string) (c : nat) : string :=
  let base := hint ++ natText c in
  if existsb (String.eqb base) used then base ++ underscores (S (maxLength used)) else base.

(** The example's recursive schema: identity 0 is [feature.array()], where
    [feature] is [{title: string, features: lazy(() => feature.array())}]. *)
Definition feature : node :=
  NObject [("title", NPrimitive "string" []); ("features", NReference 0)] ["title"; "features"].
Definition featuresArena : arena := [(0, NArray feature None None)].

(** The positive response schema of [GET /v1/user/retrieve]. *)
Definition retrieveData : node :=
  NObject [("id", NPrimitive "integer"
                    [("format", LString "int64"); ("minimum", LNumber "0");
                     ("exclusiveMinimum", LBoolean false);
                     ("maximum", LNumber "9007199254740991");
                     ("exclusiveMaximum", LBoolean false)]);
           ("name", NPrimitive "string" []);
           ("features", NReference 0)]
          ["id"; "name"; "features"].
Definition retrieve200 : node :=
  NObject [("status", NEnum [LString "success"]); ("data", retrieveData)] ["status"; "data"].

(** The naming the artifact shows: the digest listed in components.schemas. *)
Definition digestReserve (_ : list string) (_ : string) (_ : nat) : string := componentName.

(** A bare alias cycle: identity 0 is a union containing itself. *)
Definition aliasArena : arena := [(0, NUnion [NPrimitive "string" []; NReference 0])].

(** A recursive category list whose element intersects two objects
    declaring [name] with different kinds. *)
Definition conflictArena : arena :=
  [(0, NArray (NIntersection
                 [NObject [("name", NPrimitive "string" []); ("children", NReference 0)]
                          ["name"; "children"];
                  NObject [("name", NArray (NPrimitive "string" []) None None)] ["name"]])
              None None)].

End WalkerDoc.

(** Concrete endpoints and route lists used by the witnesses and the
    counterexamples below: the user-retrieval endpoint of the example
    (input [{id}], positive [{status:"success", data:{name}}], negative
    [{status:"error", error:{message}}]) and a text-returning variant. *)
Module Samples.
Import Client.

Definition retrieveUser : endpoint :=
  mkEndpoint
    (ZObject [("id", ZString)])
    (ZObject [("status", ZLiteral "success"); ("data", ZObject [("name", ZString)])])
    (ZObject [("status", ZLiteral "error"); ("error", ZObject [("message", ZString)])])
    [mimeJson] [Get].

Definition sendAvatar : endpoint :=
  mkEndpoint
    (ZObject [("userId", ZString)]) ZString ZString ["image/svg+xml"] [Get].

Definition onlyGet : list entry := [(retrieveUser, "/v1/user/retrieve", Get)].

Definition withCors : list entry :=
  [(retrieveUser, "/v1/user/retrieve", Get);
   (sendAvatar, "/v1/avatar/send", Get);
   (retrieveUser, "/v1/user/retrieve", Options);
   (sendAvatar, "/v1/avatar/options-only", Options)].

End Samples.

(** The upper-case spellings of the methods, as the message should show them. *)
Definition upperSpelling (m : method) : string :=
  match m with
  | Get => "GET" | Post => "POST" | Put => "PUT"
  | Delete => "DELETE" | Patch => "PATCH" | Options => "OPTIONS"
  end.

(** ** The class hierarchy of [errors.ts] *)
Module ErrorClasses.

(** The classes declared in [errors.ts], and the built-in [Error] they
    all derive from. *)
Inductive cls : Type :=
| CError | CRoutingError | CDocumentationError | CIOSchemaError
| COutputValidationError | CInputValidationError | CResultHandlerError
| CMissingPeerError.

Definition cls_eq_dec : forall a b : cls, {a = b} + {a <> b}.
Proof. decide equality. Defined.

Definition cls_eqb (a b : cls) : bool := if cls_eq_dec a b then true else false.

(** The [extends] clause of each class. *)
Definition parent (c : cls) : option cls :=
  match c with
  | CError => None
  | CRoutingError | CDocumentationError | CIOSchemaError
  | CResultHandlerError | CMissingPeerError => Some CError
  | COutputValidationError | CInputValidationError => Some CIOSchemaError
  end.

(** The class an error value was constructed with. *)
Definition classOf (e : Errors.error) : cls :=
  match e with
  | Errors.RoutingError _ => CRoutingError
  | Errors.DocumentationError _ => CDocumentationError
  | Errors.IOSchemaError _ => CIOSchemaError
  | Errors.OutputValidationError _ => COutputValidationError
  | Errors.InputValidationError _ => CInputValidationError
  | Errors.ResultHandlerError _ => CResultHandlerError
  | Errors.MissingPeerError _ => CMissingPeerError
  end.

(** The prototype chain of a class, walked through at most [n] links
    (the hierarchy has fewer links than classes). *)
Fixpoint protoChain (n : nat) (c : cls) : list cls :=
  match n with
  | 0 => [c]
  | S n' => c :: match parent c with Some p => protoChain n' p | None => [] end
  end.

(** [e instanceof C]. *)
Definition instanceOf (e : Errors.error) (c : cls) : bool :=
  existsb (cls_eqb c) (protoChain 8 (classOf e)).

End ErrorClasses.

(** ** Per-route view of the [Client] constructor *)
Section ClientRoutes.
Import Client.

(** The declarations one call of [endpointCb] pushes onto [agg]. *)
Definition routeDecls (e : entry) : list decl :=
  let '(endpoint, path, method) := e in
  let input := zodToTs (getInputSchema endpoint) in
  let response := zodToTs (or_ (getPositiveResponseSchema endpoint)
                                (getNegativeResponseSchema endpoint)) in
  (snd input ++ snd response ++
   [DTypeAlias false (cleanId path (method_str method) "input") (fst input);
    DTypeAlias false (cleanId path (method_str method) "response") (fst response)])%list.

(** The test [method !== "options"] of [endpointCb]. *)
Definition notOptions (e : entry) : bool := negb (method_eqb (snd e) Options).

Definition entryPath (e : entry) : string := snd (fst e).

End ClientRoutes.

(** * Proof-side definitions *)

Section ClientAux.
Import Client Artifact.

Definition cycle (es : list entry) : client := fold_left endpointCb es fresh.

Definition regValue (ep : endpoint) (p : string) (m : method) : reg_entry :=
  mkReg (cleanId p (method_str m) "input") (cleanId p (method_str m) "response")
        (existsb (String.eqb mimeJson) (getPositiveMimeTypes ep)).

Definition regStep (r : list (string * reg_entry)) (e : entry) :=
  let '(ep, p, m) := e in
  if negb (method_eqb m Options) then obj_set (methodPath m p) (regValue ep p m) r
  else r.

Definition pathStep (ps : list string) (e : entry) :=
  let '(_, p, m) := e in
  if negb (method_eqb m Options) then (ps ++ [p])%list else ps.

Definition isJsonKey (r : list (string * reg_entry)) (k : string) : bool :=
  match lookup k r with Some (_, v) => isJson v | None => false end.
End ClientAux.

Section ExampleDocAux.
Import ExampleDoc.

Definition retrieve : list selector := [K "paths"; K "/v1/user/retrieve"; K "get"].

Definition json200 : list selector :=
  retrieve ++ [K "responses"; K "200"; K "content"; K "application/json"; K "schema"].
End ExampleDocAux.

Module WalkerInv.
Import Walker.

Definition node_ind' (P : node -> Prop)
  (Hp : forall k cs, P (NPrimitive k cs))
  (Ho : forall fs req, Forall (fun kv => P (snd kv)) fs -> P (NObject fs req))
  (Ha : forall e mn mx, P e -> P (NArray e mn mx))
  (Hu : forall os, Forall P os -> P (NUnion os))
  (Hi : forall ms, Forall P ms -> P (NIntersection ms))
  (He : forall vs, P (NEnum vs))
  (Hopt : forall i, P i -> P (NOptional i))
  (Hnul : forall i, P i -> P (NNullable i))
  (Hdef : forall i v, P i -> P (NDefault i v))
  (Htr : forall i k, P i -> P (NTransformed i k))
  (Hr : forall id, P (NReference id))
  (Hun : forall k, P (NUnknown k)) : forall n, P n :=
  fix go (n : node) : P n :=
    let fix gl (l : list node) : Forall P l :=
      match l with
      | [] => Forall_nil _
      | o :: l' => Forall_cons o (go o) (gl l')
      end in
    match n with
    | NPrimitive k cs => Hp k cs
    | NObject fs req =>
        Ho fs req ((fix gf (l : list (string * node)) : Forall (fun kv => P (snd kv)) l :=
                      match l with
                      | [] => Forall_nil _
                      | kv :: l' => Forall_cons kv (go (snd kv)) (gf l')
                      end) fs)
    | NArray e mn mx => Ha e mn mx (go e)
    | NUnion os => Hu os (gl os)
    | NIntersection ms => Hi ms (gl ms)
    | NEnum vs => He vs
    | NOptional i => Hopt i (go i)
    | NNullable i => Hnul i (go i)
    | NDefault i v => Hdef i v (go i)
    | NTransformed i k => Htr i k (go i)
    | NReference id => Hr id
    | NUnknown k => Hun k
    end.

(** An outcome that is a success satisfying [P], or one of the errors a
    well-formed graph may still meet: a renderer's error or an unsupported
    kind. *)
Definition Reach {E A} (P : A -> Prop) (o : outcome E A) : Prop :=
  (exists a, o = Ok a /\ P a) \/
  (exists e, o = RenderError e) \/
  (exists p k, o = UnsupportedSchemaError p k).

Definition notinb (s : list nat) (id : nat) : bool := negb (existsb (Nat.eqb id) s).

(** The side conditions of a call: closed references, the boundary
    counts of the stack, the rank order along unguarded references, and
    enough fuel for the identities not in flight. *)
Definition Good (dom : list nat) (rank : nat -> nat) (fuel : nat)
           (stack : list (nat * (string * nat))) (b : nat) (n : node) : Prop :=
  (forall k, In k (refsOf n) -> In k dom) /\
  (forall e, In e stack -> snd (snd e) <= b) /\
  (forall k e, In k (unguarded n) -> In e stack -> snd (snd e) = b -> rank k < rank (fst e)) /\
  length (filter (notinb (map fst stack)) dom) <= fuel.

Section Invariants.
Context {F E : Type} (R : renderers F E) (reserve : list string -> string -> nat -> string)
        (ar : arena).

(** The identities with a name: registered, or in flight. *)
Definition allPairs (stack : list (nat * (string * nat))) (st : wstate F) : list (nat * string) :=
  pairsOf (components st) ++ map (fun e => (fst e, fst (snd e))) stack.

(** A component's body is the rendering of its identity's node, begun
    with the identity in flight under the component's name. *)
Definition Body (c : nat * (string * F)) : Prop :=
  exists target fuel stack b ctx st0 st1,
    lookupN (fst c) ar = Some target /\
    render R reserve fuel ar ((fst c, (fst (snd c), b)) :: stack) b ctx target st0
      = Ok (snd (snd c), st1).

(** The registry invariant while [stack] is in flight. *)
Definition Inv (stack : list (nat * (string * nat))) (st : wstate F) : Prop :=
  NoDup (map fst (allPairs stack st)) /\
  NoDup (map snd (allPairs stack st)) /\
  (forall id name, In (Expanded id name) (trace st) <-> In (id, name) (allPairs stack st)) /\
  NoDup (expandedIds (trace st)) /\
  (forall t1 t2 id name, trace st = (t1 ++ Referenced id name :: t2)%list ->
       In (id, name) (allPairs stack st) /\ In (Expanded id name) t1) /\
  (forall c, In c (components st) -> Body c).

Definition Res (stack : list (nat * (string * nat))) (o : outcome E (F * wstate F)) : Prop :=
  Reach (fun a => Inv stack (snd a)) o.

End Invariants.

End WalkerInv.

(** * Theorems *)

Section ErrorsTheorems.
Import Errors.

(** C10: a [DocumentationError] built from [message], [method], [path] and
    [isResponse] is named "DocumentationError" and its message is the given
    message, a newline, then "Caused by response schema of an Endpoint
    assigned to <METHOD> method of <path> path." ("input" instead of
    "response" when [isResponse] is false), the method upper-cased. *)
Theorem documentationError_message :
  forall (msg : string) (m : method) (path : string) (isResponse : bool),
    name (newDocumentationError msg m path isResponse) = "DocumentationError" /\
    Errors.message (newDocumentationError msg m path isResponse) =
      msg ++ nl ++ "Caused by " ++
      (if isResponse then "response" else "input") ++
      " schema of an Endpoint assigned to " ++ upperSpelling m ++
      " method of " ++ path ++ " path.".
Proof.
  intros msg m path isResponse; split; [reflexivity |].
  destruct m; reflexivity.
Qed.

End ErrorsTheorems.

(** ** The client artifact *)
Section ClientTheorems.
Import Client Artifact.

Lemma lastAlias_app : forall n a b,
    lastAlias n (a ++ b) =
    match lastAlias n b with Some t => Some t | None => lastAlias n a end.
Proof.
  intros n a b; induction a as [| d a IH]; simpl.
  - destruct (lastAlias n b); reflexivity.
  - destruct d; rewrite ?IH; try reflexivity.
    destruct (lastAlias n b); reflexivity.
Qed.

Lemma lastInterface_app : forall n a b,
    lastInterface n (a ++ b) =
    match lastInterface n b with Some t => Some t | None => lastInterface n a end.
Proof.
  intros n a b; induction a as [| d a IH]; simpl.
  - destruct (lastInterface n b); reflexivity.
  - destruct d; rewrite ?IH; try reflexivity.
    destruct (lastInterface n b); reflexivity.
Qed.

Lemma lastConst_app : forall n a b,
    lastConst n (a ++ b) =
    match lastConst n b with Some t => Some t | None => lastConst n a end.
Proof.
  intros n a b; induction a as [| d a IH]; simpl.
  - destruct (lastConst n b); reflexivity.
  - destruct d; rewrite ?IH; try reflexivity.
    destruct (lastConst n b); reflexivity.
Qed.

Lemma build_agg : forall es, agg (build es) = (agg (cycle es) ++ finalNodes (cycle es))%list.
Proof. reflexivity. Qed.

Lemma methodUnion_build : forall es,
    methodUnion (build es) = Some (TUnion (map (fun m => TLiteral (method_str m)) methodList)).
Proof. intro es; unfold methodUnion; rewrite build_agg, lastAlias_app; reflexivity. Qed.

Lemma pathUnion_build : forall es,
    pathUnion (build es) = Some (TUnion (map TLiteral (paths (cycle es)))).
Proof. intro es; unfold pathUnion; rewrite build_agg, lastAlias_app; reflexivity. Qed.

Lemma inputInterface_build : forall es,
    inputInterface (build es) = Some (map (fun '(k, v) => (k, in_ v)) (registry (cycle es))).
Proof. intro es; unfold inputInterface; rewrite build_agg, lastInterface_app; reflexivity. Qed.

Lemma responseInterface_build : forall es,
    responseInterface (build es) = Some (map (fun '(k, v) => (k, out v)) (registry (cycle es))).
Proof. intro es; unfold responseInterface; rewrite build_agg, lastInterface_app; reflexivity. Qed.

(** C2 (as stated, refuted): with one [GET] route only, the [Method] union
    still lists ["post"], which no route uses. *)
Lemma methodUnion_not_from_routes :
  (exists ts, methodUnion (build Samples.onlyGet) = Some (TUnion ts) /\
              In (TLiteral (method_str Post)) ts) /\
  ~ (exists e p, In (e, p, Post) Samples.onlyGet).
Proof.
  split.
  - eexists; split; [reflexivity | simpl; tauto].
  - intros (e & p & H); simpl in H; destruct H as [H | []]; discriminate.
Qed.

(** C2 (amended): for every sequence of routes, the generated [Method]
    type alias is the fixed union "get" | "post" | "put" | "delete" |
    "patch", independent of the methods the routes use. *)
Theorem methodUnion_fixed : forall es : list entry,
    methodUnion (build es) =
    Some (TUnion [TLiteral "get"; TLiteral "post"; TLiteral "put";
                  TLiteral "delete"; TLiteral "patch"]).
Proof. intro es; rewrite methodUnion_build; reflexivity. Qed.

Lemma agg_endpointCb : forall c ep p m,
    agg (endpointCb c (ep, p, m)) =
    (agg c ++ snd (zodToTs (getInputSchema ep))
           ++ snd (zodToTs (or_ (getPositiveResponseSchema ep) (getNegativeResponseSchema ep)))
           ++ [DTypeAlias false (cleanId p (method_str m) "input")
                 (fst (zodToTs (getInputSchema ep)));
               DTypeAlias false (cleanId p (method_str m) "response")
                 (fst (zodToTs (or_ (getPositiveResponseSchema ep)
                                    (getNegativeResponseSchema ep))))])%list.
Proof.
  intros c ep p m; unfold endpointCb.
  destruct (negb (method_eqb m Options)); simpl; rewrite <- !app_assoc; reflexivity.
Qed.

Lemma agg_fold_mono : forall es c d,
    In d (agg c) -> In d (agg (fold_left endpointCb es c)).
Proof.
  induction es as [| [[ep p] m] es IH]; intros c d H; cbn [fold_left]; [exact H |].
  apply IH; rewrite agg_endpointCb; apply in_or_app; left; exact H.
Qed.

Lemma aliases_in_cycle : forall es c ep p m,
    In (ep, p, m) es ->
    In (DTypeAlias false (cleanId p (method_str m) "input")
          (fst (zodToTs (getInputSchema ep)))) (agg (fold_left endpointCb es c)) /\
    In (DTypeAlias false (cleanId p (method_str m) "response")
          (fst (zodToTs (or_ (getPositiveResponseSchema ep) (getNegativeResponseSchema ep)))))
       (agg (fold_left endpointCb es c)).
Proof.
  induction es as [| [[ep' p'] m'] es IH]; intros c ep p m H; [destruct H |].
  destruct H as [H | H]; cbn [fold_left].
  - inversion H; subst; split; apply agg_fold_mono; rewrite agg_endpointCb;
      apply in_or_app; right; rewrite !in_app_iff; simpl; tauto.
  - apply IH; exact H.
Qed.

Lemma zodToTs_union2 : forall a b,
    fst (zodToTs (or_ a b)) = TUnion [fst (zodToTs a); fst (zodToTs b)].
Proof.
  intros a b; simpl.
  destruct (zodToTs a) as [na sa]; destruct (zodToTs b) as [nb sb]; reflexivity.
Qed.

(** C4: for every route, the generated response type alias is the union
    of the positive-outcome type and the negative-outcome type. *)
Theorem response_alias_union : forall (es : list entry) ep p m,
    In (ep, p, m) es ->
    In (DTypeAlias false (cleanId p (method_str m) "response")
          (TUnion [fst (zodToTs (getPositiveResponseSchema ep));
                   fst (zodToTs (getNegativeResponseSchema ep))]))
       (agg (build es)).
Proof.
  intros es ep p m H; rewrite build_agg, <- zodToTs_union2.
  apply in_or_app; left; apply (aliases_in_cycle es fresh ep p m H).
Qed.

Lemma response_alias_union_witness :
  In (Samples.retrieveUser, "/v1/user/retrieve", Get) Samples.onlyGet /\
  In (DTypeAlias false (cleanId "/v1/user/retrieve" "get" "response")
        (TUnion [fst (zodToTs (getPositiveResponseSchema Samples.retrieveUser));
                 fst (zodToTs (getNegativeResponseSchema Samples.retrieveUser))]))
     (agg (build Samples.onlyGet)).
Proof.
  split; [simpl; left; reflexivity |].
  apply (response_alias_union Samples.onlyGet Samples.retrieveUser "/v1/user/retrieve" Get).
  simpl; left; reflexivity.
Defined.

End ClientTheorems.

(** ** The registry, the path union and [jsonEndpoints] *)
Section RegistryTheorems.
Import Client Artifact.

Lemma str_length_app : forall a b : string,
    String.length (a ++ b) = String.length a + String.length b.
Proof. induction a as [| c a IH]; intro b; simpl; [reflexivity | now rewrite IH]. Qed.

Lemma str_app_cancel_r : forall a b c : string, a ++ c = b ++ c -> a = b.
Proof.
  induction a as [| x a IH]; intros [| y b] c H; simpl in H.
  - reflexivity.
  - apply (f_equal String.length) in H; simpl in H;
      rewrite str_length_app in H; lia.
  - apply (f_equal String.length) in H; simpl in H;
      rewrite str_length_app in H; lia.
  - inversion H; subst; f_equal; eapply IH; eassumption.
Qed.

Lemma quoted_inj : forall a b, dq ++ a ++ dq = dq ++ b ++ dq -> a = b.
Proof.
  intros a b H; simpl in H; inversion H as [H1].
  apply (str_app_cancel_r a b dq H1).
Qed.

Lemma methodPath_inj : forall m m' p p',
    methodPath m p = methodPath m' p' -> method_str m = method_str m' /\ p = p'.
Proof.
  intros m m' p p' H; unfold methodPath in H.
  destruct m, m'; simpl in H; inversion H; auto.
Qed.

Lemma method_eqb_Options : forall m, method_eqb m Options = true <-> m = Options.
Proof. intros []; unfold method_eqb; simpl; split; intro H; (reflexivity || discriminate). Qed.

Lemma registry_fold : forall es c,
    registry (fold_left endpointCb es c) = fold_left regStep es (registry c).
Proof.
  induction es as [| [[ep p] m] es IH]; intro c; [reflexivity |].
  cbn [fold_left]; rewrite IH; f_equal.
  unfold endpointCb, regStep; destruct (negb (method_eqb m Options)); reflexivity.
Qed.

Lemma paths_fold : forall es c,
    paths (fold_left endpointCb es c) = fold_left pathStep es (paths c).
Proof.
  induction es as [| [[ep p] m] es IH]; intro c; [reflexivity |].
  cbn [fold_left]; rewrite IH; f_equal.
  unfold endpointCb, pathStep; destruct (negb (method_eqb m Options)); reflexivity.
Qed.

Lemma lookup_obj_set : forall {V} k k' (v : V) o,
    lookup k (obj_set k' v o) = if String.eqb k' k then Some (k', v) else lookup k o.
Proof.
  intros V k k' v o; induction o as [| [k1 v1] o IH]; simpl.
  - unfold lookup; simpl; destruct (String.eqb k' k); reflexivity.
  - destruct (String.eqb k' k1) eqn:E1.
    + apply String.eqb_eq in E1; subst k1; unfold lookup; simpl.
      destruct (String.eqb k' k); reflexivity.
    + unfold lookup; simpl; fold (lookup k (obj_set k' v o)); rewrite IH.
      destruct (String.eqb k1 k) eqn:E2; [| reflexivity].
      apply String.eqb_eq in E2; subst k1.
      destruct (String.eqb k' k) eqn:E3; [| reflexivity].
      apply String.eqb_eq in E3; subst k'.
      discriminate.
Qed.

Lemma lookup_some : forall {V} k (o : list (string * V)) k' v,
    lookup k o = Some (k', v) -> k' = k /\ In k (map fst o).
Proof.
  intros V k o k' v H; unfold lookup in H.
  apply find_some in H; destruct H as [Hin Heq]; simpl in Heq.
  apply String.eqb_eq in Heq; subst k'; split; [reflexivity |].
  apply in_map_iff; exists (k, v); auto.
Qed.

Lemma lookup_in : forall {V} k (o : list (string * V)),
    In k (map fst o) -> exists v, lookup k o = Some (k, v).
Proof.
  intros V k o; induction o as [| [k1 v1] o IH]; simpl; [tauto |].
  intros [-> | H]; unfold lookup; simpl.
  - rewrite String.eqb_refl; eauto.
  - destruct (String.eqb k1 k) eqn:E.
    + apply String.eqb_eq in E; subst; eauto.
    + apply IH; exact H.
Qed.

Lemma regStep_other : forall es r k,
    (forall ep p m, In (ep, p, m) es -> methodPath m p <> k) ->
    lookup k (fold_left regStep es r) = lookup k r.
Proof.
  induction es as [| [[ep p] m] es IH]; intros r k H; [reflexivity |].
  cbn [fold_left]; rewrite IH by (intros; eapply H; right; eassumption).
  unfold regStep; destruct (negb (method_eqb m Options)); [| reflexivity].
  rewrite lookup_obj_set.
  destruct (String.eqb (methodPath m p) k) eqn:E; [| reflexivity].
  apply String.eqb_eq in E; exfalso; apply (H ep p m); [left |]; auto.
Qed.

Lemma regStep_lookup : forall es r ep p m,
    NoDup (map Routing.key es) -> In (ep, p, m) es -> m <> Options ->
    lookup (methodPath m p) (fold_left regStep es r) =
    Some (methodPath m p, regValue ep p m).
Proof.
  induction es as [| [[ep' p'] m'] es IH]; intros r ep p m Hnd Hin Hm; [destruct Hin |].
  simpl in Hnd; inversion Hnd as [| x l Hx Hnd']; subst.
  destruct Hin as [Heq | Hin].
  - inversion Heq; subst; cbn [fold_left].
    rewrite regStep_other.
    + unfold regStep.
      destruct (method_eqb m Options) eqn:E;
        [apply method_eqb_Options in E; contradiction |].
      simpl; rewrite lookup_obj_set, String.eqb_refl; reflexivity.
    + intros ep2 p2 m2 Hin2 Heq2.
      apply methodPath_inj in Heq2; destruct Heq2 as [Hm2 Hp2].
      apply Hx; apply in_map_iff; exists (ep2, p2, m2); split; [| exact Hin2].
      simpl; rewrite Hm2, Hp2; reflexivity.
  - cbn [fold_left]; apply IH; assumption.
Qed.

Lemma regStep_keys : forall es r k,
    In k (map fst (fold_left regStep es r)) ->
    In k (map fst r) \/
    exists ep p m, In (ep, p, m) es /\ m <> Options /\ k = methodPath m p.
Proof.
  induction es as [| [[ep p] m] es IH]; intros r k H; [left; exact H |].
  cbn [fold_left] in H; apply IH in H.
  destruct H as [H | (ep2 & p2 & m2 & Hin & Hm & ->)].
  - unfold regStep in H.
    destruct (method_eqb m Options) eqn:E; simpl in H; [left; exact H |].
    destruct (lookup_in k _ H) as [v Hv].
    rewrite lookup_obj_set in Hv.
    destruct (String.eqb (methodPath m p) k) eqn:Ek.
    + apply String.eqb_eq in Ek; subst k; right; exists ep, p, m; split; [left; reflexivity |].
      split; [intro; subst; discriminate | reflexivity].
    + left; apply (lookup_some _ _ _ _ Hv).
  - right; exists ep2, p2, m2; split; [right; exact Hin | auto].
Qed.

Lemma pathStep_in : forall es ps p,
    In p (fold_left pathStep es ps) <->
    In p ps \/ exists ep m, In (ep, p, m) es /\ m <> Options.
Proof.
  induction es as [| [[ep p'] m] es IH]; intros ps p; cbn [fold_left].
  - split; [tauto | intros [H | (ep & m & [] & _)]; exact H].
  - rewrite IH; unfold pathStep.
    destruct (method_eqb m Options) eqn:E; simpl.
    + apply method_eqb_Options in E; subst m; split.
      * intros [H | (ep2 & m2 & Hin & Hm)]; [left; exact H |].
        right; exists ep2, m2; split; [right; exact Hin | exact Hm].
      * intros [H | (ep2 & m2 & [Heq | Hin] & Hm)]; [left; exact H | | ].
        -- inversion Heq; subst; contradiction.
        -- right; exists ep2, m2; auto.
    + rewrite in_app_iff; simpl; split.
      * intros [[H | [<- | []]] | (ep2 & m2 & Hin & Hm)]; [left; exact H | |].
        -- right; exists ep, m; split; [left; reflexivity |].
           intro; subst; discriminate.
        -- right; exists ep2, m2; split; [right; exact Hin | exact Hm].
      * intros [H | (ep2 & m2 & [Heq | Hin] & Hm)]; [left; left; exact H | |].
        -- inversion Heq; subst; left; right; left; reflexivity.
        -- right; exists ep2, m2; auto.
Qed.

End RegistryTheorems.

Section JsonAndOptionsTheorems.
Import Client Artifact.

Lemma jsonEndpoints_build : forall es,
    jsonEndpoints (build es) =
    Some (map (fun k => (dq ++ k ++ dq, true))
              (filter (isJsonKey (registry (cycle es))) (map fst (registry (cycle es))))).
Proof. intro es; unfold jsonEndpoints; rewrite build_agg, lastConst_app; reflexivity. Qed.

Lemma in_quoted_keys : forall K ks,
    In (dq ++ K ++ dq, true) (map (fun k => (dq ++ k ++ dq, true)) ks) <-> In K ks.
Proof.
  intros K ks; rewrite in_map_iff; split.
  - intros (k & Hk & Hin); apply (f_equal fst) in Hk; cbn [fst] in Hk.
    apply quoted_inj in Hk; subst; exact Hin.
  - intro H; exists K; auto.
Qed.

Lemma in_quoted_names : forall K ks,
    In (dq ++ K ++ dq) (map fst (map (fun k => (dq ++ k ++ dq, true)) ks)) <-> In K ks.
Proof.
  intros K ks; rewrite map_map; simpl; rewrite in_map_iff; split.
  - intros (k & Hk & Hin); apply quoted_inj in Hk; subst; exact Hin.
  - intro H; exists K; auto.
Qed.

Lemma existsb_mime : forall l, existsb (String.eqb mimeJson) l = true <-> In mimeJson l.
Proof.
  intro l; rewrite existsb_exists; split.
  - intros (x & Hx & Heq); apply String.eqb_eq in Heq; subst; exact Hx.
  - intro H; exists mimeJson; split; [exact H | apply String.eqb_refl].
Qed.

(** C5: when the routes have pairwise distinct (method, path) pairs, the
    key of a non-[options] route appears in [jsonEndpoints] exactly when
    the endpoint's positive MIME types include application/json. *)
Theorem jsonEndpoints_iff_json_mime : forall (es : list entry) ep p m,
    NoDup (map Routing.key es) -> In (ep, p, m) es -> m <> Options ->
    exists props, jsonEndpoints (build es) = Some props /\
      (In (dq ++ methodPath m p ++ dq, true) props <->
       In mimeJson (getPositiveMimeTypes ep)).
Proof.
  intros es ep p m Hnd Hin Hm.
  rewrite jsonEndpoints_build; eexists; split; [reflexivity |].
  rewrite in_quoted_keys, filter_In.
  assert (HL : lookup (methodPath m p) (registry (cycle es)) =
               Some (methodPath m p, regValue ep p m)).
  { unfold cycle; rewrite registry_fold; apply regStep_lookup; assumption. }
  unfold isJsonKey; rewrite HL; simpl; rewrite <- existsb_mime; split.
  - intros [_ H]; exact H.
  - intro H; split; [apply (lookup_some _ _ _ _ HL) | exact H].
Qed.

Lemma jsonEndpoints_iff_json_mime_witness :
  (NoDup (map Routing.key Samples.withCors) /\
   In (Samples.sendAvatar, "/v1/avatar/send", Get) Samples.withCors /\ Get <> Options) /\
  exists props, jsonEndpoints (build Samples.withCors) = Some props /\
    (In (dq ++ methodPath Get "/v1/avatar/send" ++ dq, true) props <->
     In mimeJson (getPositiveMimeTypes Samples.sendAvatar)).
Proof.
  assert (Hnd : NoDup (map Routing.key Samples.withCors)).
  { simpl; repeat constructor; simpl; intuition discriminate. }
  assert (Hin : In (Samples.sendAvatar, "/v1/avatar/send", Get) Samples.withCors).
  { simpl; right; left; reflexivity. }
  assert (Hm : Get <> Options) by discriminate.
  split; [auto |].
  exact (jsonEndpoints_iff_json_mime Samples.withCors _ _ _ Hnd Hin Hm).
Defined.

Lemma options_key_unregistered : forall es p,
    ~ In (methodPath Options p) (map fst (registry (cycle es))).
Proof.
  intros es p H; unfold cycle in H; rewrite registry_fold in H.
  apply regStep_keys in H; destruct H as [[] | (ep & p' & m & _ & Hm & Heq)].
  apply methodPath_inj in Heq; destruct Heq as [Hs _].
  destruct m; try discriminate; contradiction.
Qed.

Lemma map_fst_project : forall (f : reg_entry -> string) (r : list (string * reg_entry)),
    map fst (map (fun '(k, v) => (k, f v)) r) = map fst r.
Proof. intros f r; induction r as [| [k v] r IH]; simpl; [reflexivity | now rewrite IH]. Qed.

Lemma in_literals : forall p ps, In (TLiteral p) (map TLiteral ps) <-> In p ps.
Proof.
  intros p ps; rewrite in_map_iff; split.
  - intros (x & Hx & Hin); inversion Hx; subst; exact Hin.
  - intro H; exists p; auto.
Qed.

(** C9: a route declared with method [options] still has its input and
    response type aliases emitted, but it adds nothing to the [Path]
    union (a path is there only when a non-[options] route has it) and
    its key is absent from the [Input] and [Response] interfaces and from
    [jsonEndpoints]. *)
Theorem options_route_excluded : forall (es : list entry) ep p,
    In (ep, p, Options) es ->
    (In (DTypeAlias false (cleanId p "options" "input")
           (fst (zodToTs (getInputSchema ep)))) (agg (build es)) /\
     In (DTypeAlias false (cleanId p "options" "response")
           (fst (zodToTs (or_ (getPositiveResponseSchema ep)
                              (getNegativeResponseSchema ep))))) (agg (build es))) /\
    (exists ts, pathUnion (build es) = Some (TUnion ts) /\
       (In (TLiteral p) ts <-> exists ep' m', In (ep', p, m') es /\ m' <> Options)) /\
    (exists ps, inputInterface (build es) = Some ps /\
                ~ In (methodPath Options p) (map fst ps)) /\
    (exists ps, responseInterface (build es) = Some ps /\
                ~ In (methodPath Options p) (map fst ps)) /\
    (exists ps, jsonEndpoints (build es) = Some ps /\
                ~ In (dq ++ methodPath Options p ++ dq) (map fst ps)).
Proof.
  intros es ep p Hin.
  split; [| split; [| split; [| split]]].
  - rewrite build_agg; destruct (aliases_in_cycle es fresh ep p Options Hin) as [H1 H2].
    split; apply in_or_app; left; assumption.
  - rewrite pathUnion_build; eexists; split; [reflexivity |].
    rewrite in_literals; unfold cycle; rewrite paths_fold, pathStep_in; simpl.
    split; [intros [[] | H]; exact H | intro H; right; exact H].
  - rewrite inputInterface_build; eexists; split; [reflexivity |].
    rewrite map_fst_project; apply options_key_unregistered.
  - rewrite responseInterface_build; eexists; split; [reflexivity |].
    rewrite map_fst_project; apply options_key_unregistered.
  - rewrite jsonEndpoints_build; eexists; split; [reflexivity |].
    rewrite in_quoted_names, filter_In; intros [H _].
    exact (options_key_unregistered es p H).
Qed.

Lemma options_route_excluded_witness :
  In (Samples.sendAvatar, "/v1/avatar/options-only", Options) Samples.withCors /\
  ((In (DTypeAlias false (cleanId "/v1/avatar/options-only" "options" "input")
          (fst (zodToTs (getInputSchema Samples.sendAvatar)))) (agg (build Samples.withCors)) /\
    In (DTypeAlias false (cleanId "/v1/avatar/options-only" "options" "response")
          (fst (zodToTs (or_ (getPositiveResponseSchema Samples.sendAvatar)
                             (getNegativeResponseSchema Samples.sendAvatar)))))
       (agg (build Samples.withCors))) /\
   (exists ts, pathUnion (build Samples.withCors) = Some (TUnion ts) /\
      (In (TLiteral "/v1/avatar/options-only") ts <->
       exists ep' m', In (ep', "/v1/avatar/options-only", m') Samples.withCors /\ m' <> Options)) /\
   (exists ps, inputInterface (build Samples.withCors) = Some ps /\
               ~ In (methodPath Options "/v1/avatar/options-only") (map fst ps)) /\
   (exists ps, responseInterface (build Samples.withCors) = Some ps /\
               ~ In (methodPath Options "/v1/avatar/options-only") (map fst ps)) /\
   (exists ps, jsonEndpoints (build Samples.withCors) = Some ps /\
               ~ In (dq ++ methodPath Options "/v1/avatar/options-only" ++ dq) (map fst ps))).
Proof.
  assert (Hin : In (Samples.sendAvatar, "/v1/avatar/options-only", Options) Samples.withCors).
  { simpl; right; right; right; left; reflexivity. }
  split; [exact Hin | exact (options_route_excluded Samples.withCors _ _ Hin)].
Defined.

End JsonAndOptionsTheorems.

(** ** The example documentation *)
Section ExampleDocTheorems.
Import ExampleDoc.



(** The recursive [features] schema of the example document: one
    component, whose body is the inline first occurrence
    [data.features], and every other occurrence is a [$ref] to it. *)
Lemma features_component_in_document :
  componentNames document = [componentName] /\
  at_ [K "components"; K "schemas"; K componentName] document =
    at_ (json200 ++ [K "properties"; K "data"; K "properties"; K "features"]) document /\
  refs document = [componentRef; componentRef].
Proof. repeat split; vm_compute; reflexivity. Qed.

End ExampleDocTheorems.

(** ** The schema walker *)
Module WalkerFacts.
Import Walker.

Section Equations.
Context {F E : Type} (R : renderers F E) (reserve : list string -> string -> nat -> string)
        (fuel : nat) (ar : arena) (stack : list (nat * (string * nat))) (b : nat)
        (ctx : context) (st : wstate F).

Let rd := render R reserve fuel ar stack.

Lemma render_primitive : forall k cs,
    rd b ctx (NPrimitive k cs) st = lift (rPrimitive R ctx k cs) st.
Proof. intros; destruct fuel; reflexivity. Qed.

Lemma render_object : forall fs req,
    rd b ctx (NObject fs req) st =
    bindO (seqFields (fun k v => rd (S b) (fieldCtx ctx k) v) fs st)
          (fun r => lift (rObject R ctx (fst r) req) (snd r)).
Proof. intros; destruct fuel; reflexivity. Qed.

Lemma render_array : forall e mn mx,
    rd b ctx (NArray e mn mx) st =
    bindO (rd (S b) (itemsCtx ctx) e st) (fun r => lift (rArray R ctx (fst r) mn mx) (snd r)).
Proof. intros; destruct fuel; reflexivity. Qed.

Lemma render_union : forall os,
    rd b ctx (NUnion os) st =
    bindO (seqList (fun i o => rd b (memberCtx ctx i) o) 0 os st)
          (fun r => lift (rUnion R ctx (fst r)) (snd r)).
Proof. intros; destruct fuel; reflexivity. Qed.

Lemma render_intersection : forall ms,
    rd b ctx (NIntersection ms) st =
    bindO (seqList (fun i o => rd b (memberCtx ctx i) o) 0 ms st)
          (fun r => lift (rIntersection R ctx (fst r)) (snd r)).
Proof. intros; destruct fuel; reflexivity. Qed.

Lemma render_enum : forall vs, rd b ctx (NEnum vs) st = lift (rEnum R ctx vs) st.
Proof. intros; destruct fuel; reflexivity. Qed.

Lemma render_optional : forall i,
    rd b ctx (NOptional i) st = rd b (wrapCtx withOptional ctx) i st.
Proof. intros; destruct fuel; reflexivity. Qed.

Lemma render_nullable : forall i,
    rd b ctx (NNullable i) st = rd b (wrapCtx withNullable ctx) i st.
Proof. intros; destruct fuel; reflexivity. Qed.

Lemma render_default : forall i v,
    rd b ctx (NDefault i v) st = rd b (wrapCtx (withDefault v) ctx) i st.
Proof. intros; destruct fuel; reflexivity. Qed.

Lemma render_transformed : forall i k,
    rd b ctx (NTransformed i k) st =
    bindO (rd b (innerCtx ctx) i st) (fun r => lift (rTransformed R ctx (fst r) k) (snd r)).
Proof. intros; destruct fuel; reflexivity. Qed.

Lemma render_unknown : forall k,
    rd b ctx (NUnknown k) st = UnsupportedSchemaError (rev (revPath ctx)) k.
Proof. intros; destruct fuel; reflexivity. Qed.

Lemma render_reference : forall id,
    rd b ctx (NReference id) st =
    match lookupN id (components st) with
    | Some (name, _) => refTo R ctx id name st
    | None =>
        match lookupN id stack with
        | Some (name, bid) =>
            if Nat.eqb bid b then UnrenderableCycleError id else refTo R ctx id name st
        | None =>
            match fuel with
            | 0 => OutOfFuel
            | S fuel' =>
                match lookupN id ar with
                | None => UnresolvedReference id
                | Some target =>
                    let name := reserve (names (components st) ++ snames stack)
                                        (hint ctx) (counter st) in
                    bindO (render R reserve fuel' ar ((id, (name, b)) :: stack) b ctx target
                             (mkState (S (counter st)) (components st)
                                      (trace st ++ [Expanded id name])))
                      (fun r =>
                         Ok (fst r, mkState (counter (snd r))
                                            (components (snd r) ++ [(id, (name, fst r))])
                                            (trace (snd r))))
                end
            end
        end
    end.
Proof. intros; destruct fuel; reflexivity. Qed.

End Equations.

Lemma lookupN_some : forall {A} id (l : list (nat * A)) a,
    lookupN id l = Some a -> In (id, a) l.
Proof.
  intros A id l a; induction l as [| [id' a'] l IH]; simpl; [discriminate |].
  destruct (Nat.eqb id id') eqn:E.
  - intro H; inversion H; subst; apply Nat.eqb_eq in E; subst; left; reflexivity.
  - intro H; right; apply IH; exact H.
Qed.

Lemma lookupN_none : forall {A} id (l : list (nat * A)),
    lookupN id l = None -> ~ In id (map fst l).
Proof.
  intros A id l; induction l as [| [id' a'] l IH]; simpl; [auto |].
  destruct (Nat.eqb id id') eqn:E; [discriminate |].
  intros H [Heq | Hin]; [subst; rewrite Nat.eqb_refl in E; discriminate |].
  exact (IH H Hin).
Qed.

Lemma lookupN_in : forall {A} id (l : list (nat * A)),
    In id (map fst l) -> exists a, lookupN id l = Some a.
Proof.
  intros A id l Hin; destruct (lookupN id l) as [a |] eqn:E; [eauto |].
  exfalso; exact (lookupN_none _ _ E Hin).
Qed.

Lemma expandedIds_app : forall t1 t2,
    expandedIds (t1 ++ t2) = (expandedIds t1 ++ expandedIds t2)%list.
Proof.
  induction t1 as [| [id nm | id nm] t1 IH]; intro t2; simpl; [reflexivity | | ];
    rewrite IH; reflexivity.
Qed.

Lemma in_expandedIds : forall id t,
    In id (expandedIds t) <-> exists name, In (Expanded id name) t.
Proof.
  intros id t; induction t as [| [id' nm | id' nm] t IH]; simpl.
  - split; [intros [] | intros [nm []]].
  - rewrite IH; split.
    + intros [<- | [nm' H]]; [exists nm; left; reflexivity | exists nm'; right; exact H].
    + intros [nm' [H | H]]; [injection H as <- _; left; reflexivity | right; exists nm'; exact H].
  - rewrite IH; split; intros [nm' H]; exists nm';
      [right; exact H | destruct H as [H | H]; [discriminate | exact H]].
Qed.

(** Splitting a trace extended by one event. *)
Lemma app_last_split : forall {A} (t1 t2 l : list A) x y,
    (t1 ++ x :: t2 = l ++ [y])%list ->
    (t1 = l /\ x = y /\ t2 = []) \/ (exists t2', l = (t1 ++ x :: t2')%list).
Proof.
  intros A t1 t2 l x y H.
  destruct (rev t2) as [| z rt] eqn:Er.
  - assert (t2 = []) as -> by (rewrite <- (rev_involutive t2), Er; reflexivity).
    apply app_inj_tail in H as [-> ->]; left; auto.
  - assert (t2 = rev rt ++ [z])%list as E2 by (rewrite <- (rev_involutive t2), Er; reflexivity).
    rewrite E2, app_comm_cons, app_assoc in H; apply app_inj_tail in H as [<- _].
    right; exists (rev rt); reflexivity.
Qed.

Lemma in_middle : forall {A} (x y : A) l1 l2,
    In x (l1 ++ y :: l2)%list <-> y = x \/ In x (l1 ++ l2)%list.
Proof. intros; rewrite !in_app_iff; simpl; tauto. Qed.

End WalkerFacts.
Module WalkerProof.
Import Walker WalkerFacts WalkerInv.

Lemma reach_bind : forall {E A B} (P : A -> Prop) (Q : B -> Prop) (o : outcome E A) k,
    Reach P o -> (forall a, o = Ok a -> P a -> Reach Q (k a)) -> Reach Q (bindO o k).
Proof.
  intros E A B P Q o k [[a [-> Ha]] | [[e ->] | [p [kd ->]]]] Hk.
  - exact (Hk a eq_refl Ha).
  - right; left; exists e; reflexivity.
  - right; right; exists p, kd; reflexivity.
Qed.

Lemma reach_lift : forall {F E} (P : F * wstate F -> Prop) (x : E + F) st,
    (forall f, P (f, st)) -> Reach P (lift x st).
Proof.
  intros F E P [e | f] st HP; simpl.
  - right; left; exists e; reflexivity.
  - left; exists (f, st); split; [reflexivity | apply HP].
Qed.

Lemma existsb_eqb_in : forall id s, existsb (Nat.eqb id) s = true <-> In id s.
Proof.
  intros id s; rewrite existsb_exists; split.
  - intros [x [Hx E]]; apply Nat.eqb_eq in E; subst; exact Hx.
  - intro H; exists id; split; [exact H | apply Nat.eqb_refl].
Qed.

Lemma count_push : forall dom id s,
    NoDup dom -> In id dom -> ~ In id s ->
    length (filter (notinb s) dom) = S (length (filter (notinb (id :: s)) dom)).
Proof.
  intros dom id s Hnd; induction Hnd as [| x dom Hx Hnd IH]; intros Hin Hs; [destruct Hin |].
  simpl.
  destruct (Nat.eqb x id) eqn:Exi.
  - apply Nat.eqb_eq in Exi; subst x.
    assert (Hn : notinb s id = true).
    { unfold notinb; destruct (existsb (Nat.eqb id) s) eqn:E;
        [apply existsb_eqb_in in E; contradiction | reflexivity]. }
    assert (Hn' : notinb (id :: s) id = false).
    { unfold notinb; simpl; rewrite Nat.eqb_refl; reflexivity. }
    rewrite Hn, Hn'; simpl; f_equal.
    apply (f_equal (@length nat)), filter_ext_in.
    intros y Hy; unfold notinb; simpl.
    destruct (Nat.eqb y id) eqn:Ey; [apply Nat.eqb_eq in Ey; subst; contradiction | reflexivity].
  - destruct Hin as [Heq | Hin]; [subst; rewrite Nat.eqb_refl in Exi; discriminate |].
    assert (Hx' : notinb (id :: s) x = notinb s x).
    { unfold notinb; simpl; rewrite Exi; reflexivity. }
    rewrite Hx'; destruct (notinb s x); simpl; rewrite (IH Hin Hs); reflexivity.
Qed.

Section Preservation.
Context {F E : Type} (R : renderers F E) (reserve : list string -> string -> nat -> string)
        (ar : arena).

Lemma allPairs_fst : forall stack (st : wstate F),
    map fst (allPairs stack st) = (map fst (components st) ++ map fst stack)%list.
Proof.
  intros; unfold allPairs, pairsOf; rewrite map_app, !map_map; reflexivity.
Qed.

Lemma allPairs_snd : forall stack (st : wstate F),
    map snd (allPairs stack st) = (names (components st) ++ snames stack)%list.
Proof.
  intros; unfold allPairs, pairsOf, names, snames; rewrite map_app, !map_map; reflexivity.
Qed.

(** The invariant depends on the named identities, the trace and the
    registered bodies only. *)
Lemma inv_transfer : forall stack stack' (st st' : wstate F),
    allPairs stack' st' = allPairs stack st -> trace st' = trace st ->
    (forall c, In c (components st') -> Body R reserve ar c) ->
    Inv R reserve ar stack st -> Inv R reserve ar stack' st'.
Proof.
  intros stack stack' st st' Ep Et Hb [I1 [I2 [I3 [I4 [I5 _]]]]].
  unfold Inv; rewrite Ep, Et; auto 6.
Qed.

Lemma inv_ref : forall stack (st : wstate F) id name,
    Inv R reserve ar stack st -> In (id, name) (allPairs stack st) ->
    Inv R reserve ar stack
        (mkState (counter st) (components st) (trace st ++ [Referenced id name])).
Proof.
  intros stack st id name [I1 [I2 [I3 [I4 [I5 I6]]]]] Hin.
  unfold Inv, allPairs in *; cbn [components trace] in *.
  split; [exact I1 | split; [exact I2 | split; [| split; [| split]]]].
  - intros x y; rewrite in_app_iff, <- I3; simpl.
    split; [intros [H | [H | []]]; [exact H | discriminate] | intro H; left; exact H].
  - rewrite expandedIds_app, app_nil_r; exact I4.
  - intros t1 t2 x y Ht; destruct (app_last_split _ _ _ _ _ (eq_sym Ht)) as [[-> [Hxy ->]] | [t2' Ht']].
    + injection Hxy as -> ->; split; [exact Hin | apply I3; exact Hin].
    + exact (I5 t1 t2' x y Ht').
  - exact I6.
Qed.

Lemma inv_push : forall stack (st : wstate F) id name b,
    Inv R reserve ar stack st ->
    ~ In id (map fst (allPairs stack st)) -> ~ In name (map snd (allPairs stack st)) ->
    Inv R reserve ar ((id, (name, b)) :: stack)
        (mkState (S (counter st)) (components st) (trace st ++ [Expanded id name])).
Proof.
  intros stack st id name b [I1 [I2 [I3 [I4 [I5 I6]]]]] Hid Hnm.
  assert (Ep : allPairs ((id, (name, b)) :: stack)
                 (mkState (S (counter st)) (components st) (trace st ++ [Expanded id name]))
               = (pairsOf (components st) ++ (id, name) :: map (fun e => (fst e, fst (snd e))) stack)%list)
    by reflexivity.
  unfold Inv; rewrite Ep; cbn [components trace]; unfold allPairs in *.
  split; [| split; [| split; [| split; [| split]]]].
  - rewrite map_app; simpl; apply Permutation_NoDup with (id :: map fst (allPairs stack st));
      [unfold allPairs; rewrite map_app; apply Permutation_middle | constructor; assumption].
  - rewrite map_app; simpl; apply Permutation_NoDup with (name :: map snd (allPairs stack st));
      [unfold allPairs; rewrite map_app; apply Permutation_middle | constructor; assumption].
  - intros x y; rewrite (in_middle (x, y)), (in_app_iff (trace st)), I3; simpl.
    split; [intros [H | [H | []]]; [right; exact H | left; congruence]
           | intros [H | H]; [right; left; congruence | left; exact H]].
  - rewrite expandedIds_app; simpl.
    apply Permutation_NoDup with (id :: expandedIds (trace st)); [apply Permutation_cons_append |].
    constructor; [| exact I4].
    intro H; apply in_expandedIds in H as [nm H]; apply I3 in H.
    apply Hid; exact (in_map fst _ (id, nm) H).
  - intros t1 t2 x y Ht; destruct (app_last_split _ _ _ _ _ (eq_sym Ht)) as [[_ [Hxy _]] | [t2' Ht']];
      [discriminate |].
    destruct (I5 t1 t2' x y Ht') as [H1 H2]; split; [apply in_middle; right; exact H1 | exact H2].
  - exact I6.
Qed.

Lemma inv_pop : forall stack (st2 : wstate F) id name b f,
    Inv R reserve ar ((id, (name, b)) :: stack) st2 ->
    Body R reserve ar (id, (name, f)) ->
    Inv R reserve ar stack
        (mkState (counter st2) (components st2 ++ [(id, (name, f))]) (trace st2)).
Proof.
  intros stack st2 id name b f HI Hb.
  apply (inv_transfer ((id, (name, b)) :: stack) stack st2); [| reflexivity | |].
  - unfold allPairs, pairsOf; cbn [components]; rewrite map_app, <- app_assoc; reflexivity.
  - cbn [components]; intros c Hc; apply in_app_or in Hc as [Hc | [<- | []]];
      [exact (proj2 (proj2 (proj2 (proj2 (proj2 HI)))) c Hc) | exact Hb].
  - exact HI.
Qed.

Lemma seqFields_ok : forall stack (f : string -> node -> wstate F -> outcome E (F * wstate F)) fs st,
    (forall k v, In (k, v) fs -> forall st, Inv R reserve ar stack st ->
       Res R reserve ar stack (f k v st)) ->
    Inv R reserve ar stack st ->
    Reach (fun a => Inv R reserve ar stack (snd a)) (seqFields f fs st).
Proof.
  intros stack f fs; induction fs as [| [k v] fs IH]; intros st Hf HI; simpl.
  - left; exists ([], st); split; [reflexivity | exact HI].
  - apply (reach_bind _ _ _ _ (Hf k v (or_introl eq_refl) st HI)).
    intros [g st1] _ HI1.
    apply (reach_bind _ _ _ _ (IH st1 (fun k' v' H => Hf k' v' (or_intror H)) HI1)).
    intros [ps st2] _ HI2; left; eexists; split; [reflexivity | exact HI2].
Qed.

Lemma seqList_ok : forall stack (f : nat -> node -> wstate F -> outcome E (F * wstate F)) ns i st,
    (forall j o, In o ns -> forall st, Inv R reserve ar stack st ->
       Res R reserve ar stack (f j o st)) ->
    Inv R reserve ar stack st ->
    Reach (fun a => Inv R reserve ar stack (snd a)) (seqList f i ns st).
Proof.
  intros stack f ns; induction ns as [| v ns IH]; intros i st Hf HI; simpl.
  - left; exists ([], st); split; [reflexivity | exact HI].
  - apply (reach_bind _ _ _ _ (Hf i v (or_introl eq_refl) st HI)).
    intros [g st1] _ HI1.
    apply (reach_bind _ _ _ _ (IH (S i) st1 (fun j o H => Hf j o (or_intror H)) HI1)).
    intros [gs st2] _ HI2; left; eexists; split; [reflexivity | exact HI2].
Qed.

End Preservation.

Section GoodSteps.
Variables (dom : list nat) (rank : nat -> nat).

(** Below an Object or Array boundary. *)
Lemma good_guarded : forall fuel stack b n m,
    Good dom rank fuel stack b n -> (forall k, In k (refsOf m) -> In k (refsOf n)) ->
    Good dom rank fuel stack (S b) m.
Proof.
  intros fuel stack b n m [Gr [Gb [Gu Gf]]] Hsub; split; [| split; [| split]].
  - intros k Hk; apply Gr, Hsub, Hk.
  - intros e He; specialize (Gb e He); lia.
  - intros k e _ He Hb; specialize (Gb e He); lia.
  - exact Gf.
Qed.

(** Through a union, an intersection, a wrapper or a transform. *)
Lemma good_same : forall fuel stack b n m,
    Good dom rank fuel stack b n -> (forall k, In k (refsOf m) -> In k (refsOf n)) ->
    (forall k, In k (unguarded m) -> In k (unguarded n)) ->
    Good dom rank fuel stack b m.
Proof.
  intros fuel stack b n m [Gr [Gb [Gu Gf]]] Hr Hu; split; [| split; [| split]].
  - intros k Hk; apply Gr, Hr, Hk.
  - exact Gb.
  - intros k e Hk He Hb; exact (Gu k e (Hu k Hk) He Hb).
  - exact Gf.
Qed.

End GoodSteps.

End WalkerProof.
Module WalkerMain.
Import Walker WalkerFacts WalkerInv WalkerProof.

Section Run.
Context {F E : Type} (R : renderers F E) (reserve : list string -> string -> nat -> string).
Variable ar : arena.
Variable rank : nat -> nat.
Hypothesis Hfresh : forall used h c, ~ In (reserve used h c) used.
Hypothesis Hnd : NoDup (map fst ar).
Hypothesis Hclosed : forall id body k, In (id, body) ar -> In k (refsOf body) -> In k (map fst ar).
Hypothesis Hrank : forall id body k, In (id, body) ar -> In k (unguarded body) -> rank k < rank id.

Let dom := map fst ar.

Lemma ref_case : forall fuel,
    (forall fuel', fuel = S fuel' -> forall n stack b ctx (st : wstate F),
        Good dom rank fuel' stack b n -> Inv R reserve ar stack st ->
        Res R reserve ar stack (render R reserve fuel' ar stack b ctx n st)) ->
    forall id stack b ctx (st : wstate F),
      Good dom rank fuel stack b (NReference id) -> Inv R reserve ar stack st ->
      Res R reserve ar stack (render R reserve fuel ar stack b ctx (NReference id) st).
Proof.
  intros fuel IHf id stack b ctx st HG HI; rewrite render_reference.
  destruct HG as [Gr [Gb [Gu Gf]]].
  assert (Hdom : In id dom) by (apply Gr; left; reflexivity).
  destruct (lookupN id (components st)) as [[name body] |] eqn:Ec.
  - unfold refTo; apply reach_lift; intro f; apply inv_ref; [exact HI |].
    apply lookupN_some in Ec; unfold allPairs, pairsOf; apply in_or_app; left.
    exact (in_map (fun c => (fst c, fst (snd c))) _ _ Ec).
  - destruct (lookupN id stack) as [[name bid] |] eqn:Es.
    + apply lookupN_some in Es; destruct (Nat.eqb bid b) eqn:Eb.
      * exfalso; apply Nat.eqb_eq in Eb.
        specialize (Gu id (id, (name, bid)) (or_introl eq_refl) Es Eb); simpl in Gu; lia.
      * unfold refTo; apply reach_lift; intro f; apply inv_ref; [exact HI |].
        unfold allPairs; apply in_or_app; right.
        exact (in_map (fun e => (fst e, fst (snd e))) _ _ Es).
    + apply lookupN_none in Ec; apply lookupN_none in Es.
      pose proof (count_push dom id (map fst stack) Hnd Hdom Es) as Hcount.
      destruct fuel as [| fuel']; [exfalso; lia |].
      destruct (lookupN_in id ar Hdom) as [target Etl]; rewrite Etl.
      pose proof (lookupN_some _ _ _ Etl) as Et.
      cbv zeta.
      set (name := reserve (names (components st) ++ snames stack) (hint ctx) (counter st)).
      set (st1 := mkState (S (counter st)) (components st) (trace st ++ [Expanded id name])).
      assert (HI1 : Inv R reserve ar ((id, (name, b)) :: stack) st1).
      { apply inv_push; [exact HI | |].
        - rewrite allPairs_fst; intro H; apply in_app_or in H; tauto.
        - rewrite allPairs_snd; apply Hfresh. }
      assert (HG1 : Good dom rank fuel' ((id, (name, b)) :: stack) b target).
      { split; [| split; [| split]].
        - intros k Hk; exact (Hclosed _ _ _ Et Hk).
        - intros e [<- | He]; [simpl; lia | exact (Gb e He)].
        - intros k e Hk [<- | He] Hb.
          + exact (Hrank _ _ _ Et Hk).
          + pose proof (Hrank _ _ _ Et Hk).
            pose proof (Gu id e (or_introl eq_refl) He Hb); lia.
        - simpl map; lia. }
      apply (reach_bind _ _ _ _ (IHf fuel' eq_refl target _ b ctx st1 HG1 HI1)).
      intros [f st2] E2 HI2; left; eexists; split; [reflexivity |].
      cbn [fst snd] in HI2 |- *.
      apply (inv_pop R reserve ar stack st2 id name b f); [exact HI2 |].
      exists target, fuel', stack, b, ctx, st1, st2; split; [| exact E2].
      exact Etl.
Qed.

Lemma lift_all : forall fuel,
    (forall id stack b ctx (st : wstate F),
       Good dom rank fuel stack b (NReference id) -> Inv R reserve ar stack st ->
       Res R reserve ar stack (render R reserve fuel ar stack b ctx (NReference id) st)) ->
    forall n stack b ctx (st : wstate F),
      Good dom rank fuel stack b n -> Inv R reserve ar stack st ->
      Res R reserve ar stack (render R reserve fuel ar stack b ctx n st).
Proof.
  intros fuel Href n.
  induction n as [k cs | fs req IHfs | e mn mx IHe | os IHos | ms IHms | vs
                 | i IHi | i IHi | i v IHi | i kd IHi | id | kd] using node_ind';
    intros stack b ctx st HG HI.
  - rewrite render_primitive; apply reach_lift; intro; exact HI.
  - rewrite render_object.
    assert (Hf : forall k v, In (k, v) fs -> forall st0, Inv R reserve ar stack st0 ->
                 Res R reserve ar stack
                     (render R reserve fuel ar stack (S b) (fieldCtx ctx k) v st0)).
    { intros k v Hkv st0 HI0; rewrite Forall_forall in IHfs.
      apply (IHfs (k, v) Hkv); [| exact HI0].
      apply (good_guarded _ _ _ _ _ _ _ HG); intros k' Hk'; simpl; apply in_flat_map.
      exists (k, v); split; [exact Hkv | exact Hk']. }
    apply (reach_bind _ _ _ _ (seqFields_ok R reserve ar stack _ fs st Hf HI)).
    intros [r st'] _ HI'; apply reach_lift; intro; exact HI'.
  - rewrite render_array.
    apply (reach_bind _ _ _ _ (IHe stack (S b) (itemsCtx ctx) st
                                   (good_guarded _ _ _ _ _ _ e HG (fun k H => H)) HI)).
    intros [r st'] _ HI'; apply reach_lift; intro; exact HI'.
  - rewrite render_union.
    assert (Hf : forall j o, In o os -> forall st0, Inv R reserve ar stack st0 ->
                 Res R reserve ar stack
                     (render R reserve fuel ar stack b (memberCtx ctx j) o st0)).
    { intros j o Ho st0 HI0; rewrite Forall_forall in IHos.
      apply (IHos o Ho); [| exact HI0].
      apply (good_same _ _ _ _ _ _ _ HG); intros k' Hk'; simpl; apply in_flat_map; eauto. }
    apply (reach_bind _ _ _ _ (seqList_ok R reserve ar stack _ os 0 st Hf HI)).
    intros [r st'] _ HI'; apply reach_lift; intro; exact HI'.
  - rewrite render_intersection.
    assert (Hf : forall j o, In o ms -> forall st0, Inv R reserve ar stack st0 ->
                 Res R reserve ar stack
                     (render R reserve fuel ar stack b (memberCtx ctx j) o st0)).
    { intros j o Ho st0 HI0; rewrite Forall_forall in IHms.
      apply (IHms o Ho); [| exact HI0].
      apply (good_same _ _ _ _ _ _ _ HG); intros k' Hk'; simpl; apply in_flat_map; eauto. }
    apply (reach_bind _ _ _ _ (seqList_ok R reserve ar stack _ ms 0 st Hf HI)).
    intros [r st'] _ HI'; apply reach_lift; intro; exact HI'.
  - rewrite render_enum; apply reach_lift; intro; exact HI.
  - rewrite render_optional; apply IHi; [| exact HI].
    exact (good_same _ _ _ _ _ _ i HG (fun k H => H) (fun k H => H)).
  - rewrite render_nullable; apply IHi; [| exact HI].
    exact (good_same _ _ _ _ _ _ i HG (fun k H => H) (fun k H => H)).
  - rewrite render_default; apply IHi; [| exact HI].
    exact (good_same _ _ _ _ _ _ i HG (fun k H => H) (fun k H => H)).
  - rewrite render_transformed.
    apply (reach_bind _ _ _ _ (IHi stack b (innerCtx ctx) st
                                   (good_same _ _ _ _ _ _ i HG (fun k H => H) (fun k H => H)) HI)).
    intros [r st'] _ HI'; apply reach_lift; intro; exact HI'.
  - exact (Href id stack b ctx st HG HI).
  - rewrite render_unknown; right; right; eexists; eexists; reflexivity.
Qed.

Lemma render_ok : forall fuel n stack b ctx (st : wstate F),
    Good dom rank fuel stack b n -> Inv R reserve ar stack st ->
    Res R reserve ar stack (render R reserve fuel ar stack b ctx n st).
Proof.
  induction fuel as [| fuel IHf]; apply lift_all; apply ref_case;
    intros fuel' Hf; [discriminate | injection Hf as <-; exact IHf].
Qed.

End Run.
End WalkerMain.
Module WalkerResult.
Import Walker WalkerFacts WalkerInv WalkerProof WalkerMain WalkerDoc.

Lemma underscores_length : forall n, String.length (underscores n) = n.
Proof. induction n as [| n IH]; simpl; [reflexivity | rewrite IH; reflexivity]. Qed.

Lemma maxLength_ge : forall used s, In s used -> String.length s <= maxLength used.
Proof.
  induction used as [| u used IH]; intros s Hs; [destruct Hs |].
  simpl; destruct Hs as [<- | Hs]; [lia |].
  specialize (IH s Hs); lia.
Qed.

(** The naming scheme of section 4.2 never returns a name in use. *)
Lemma specReserve_fresh : forall used h c, ~ In (specReserve used h c) used.
Proof.
  intros used h c; unfold specReserve.
  destruct (existsb (String.eqb (h ++ natText c)) used) eqn:E.
  - intro Hin; apply maxLength_ge in Hin.
    rewrite str_length_app, underscores_length in Hin; lia.
  - intro Hin.
    assert (existsb (String.eqb (h ++ natText c)) used = true) as E'
      by (apply existsb_exists; exists (h ++ natText c); split; [exact Hin | apply String.eqb_refl]).
    congruence.
Qed.

(** C1 (as stated, refuted): a recursive list of categories whose cycle
    crosses an Array and an Object boundary, and whose element intersects
    two objects declaring [name] as a string and as an array.  Rendering
    it with the document renderers and the naming scheme of section 4.2
    does not register a component: it fails with
    [IntersectionConflictError]. *)
Lemma conflict_cycle_not_registered :
  NoDup (map fst conflictArena) /\
  (forall id body, In (id, body) conflictArena -> refsOf body = [0] /\ unguarded body = []) /\
  renderRoot docRenderers specReserve conflictArena "categories" (NReference 0)
    = RenderError (IntersectionConflictError "name" "string" "array").
Proof.
  split; [| split].
  - constructor; [intros [] | constructor].
  - intros id body [H | []]; injection H as <- <-; split; reflexivity.
  - vm_compute; reflexivity.
Qed.

(** C1 (amended): for an arena whose identities are distinct and whose
    references all resolve, where every cycle crosses at least one Object
    or Array boundary (no identity reaches itself through unions,
    intersections, wrappers, transforms and references alone, which the
    strictly decreasing [rank] expresses), and for any renderer table and
    any naming function that returns a name not in use, rendering from
    any root terminates and never fails with [UnrenderableCycleError].
    It fails with an error a renderer raised (such as
    [IntersectionConflictError]) or with [UnsupportedSchemaError], or it
    succeeds.  On success every identity met is registered as exactly one
    component, under a name no other component has.  The trace of the
    reference visits shows each registered identity expanded exactly once,
    under its component's name, and every other visit of an identity is a
    reference to that identity's own component name, visited after its
    expansion began.  Each component's body is the rendering of its
    identity's node begun with the identity in flight under that name. *)
Theorem render_cycles_terminate_and_share :
  forall {F E : Type} (R : renderers F E) (reserve : list string -> string -> nat -> string)
         (ar : arena) (rank : nat -> nat) (hint0 : string) (root : node),
    (forall used h c, ~ In (reserve used h c) used) ->
    NoDup (map fst ar) ->
    (forall id body k, In (id, body) ar -> In k (refsOf body) -> In k (map fst ar)) ->
    (forall id body k, In (id, body) ar -> In k (unguarded body) -> rank k < rank id) ->
    (forall k, In k (refsOf root) -> In k (map fst ar)) ->
    (exists out st,
        renderRoot R reserve ar hint0 root = Ok (out, st) /\
        NoDup (map fst (components st)) /\
        NoDup (names (components st)) /\
        (forall id name, In (Expanded id name) (trace st) <-> In (id, name) (pairsOf (components st))) /\
        NoDup (expandedIds (trace st)) /\
        (forall t1 t2 id name, trace st = (t1 ++ Referenced id name :: t2)%list ->
           In (id, name) (pairsOf (components st)) /\ In (Expanded id name) t1) /\
        (forall c, In c (components st) -> Body R reserve ar c)) \/
    (exists e, renderRoot R reserve ar hint0 root = RenderError e) \/
    (exists p k, renderRoot R reserve ar hint0 root = UnsupportedSchemaError p k).
Proof.
  intros F E R reserve ar rank hint0 root Hfresh Hnd Hclosed Hrank Hroot.
  assert (HG : Good (map fst ar) rank (length ar) [] 0 root).
  { split; [exact Hroot | split; [intros e [] | split; [intros k e _ [] |]]].
    assert (Hf : forall l, filter (notinb []) l = l)
      by (intro l; induction l as [| a l IH]; simpl; [reflexivity | rewrite IH; reflexivity]).
    simpl map; rewrite Hf, length_map; lia. }
  assert (HI : Inv R reserve ar [] initial).
  { unfold Inv, allPairs; simpl.
    split; [constructor | split; [constructor | split; [tauto | split; [constructor |]]]].
    split; [| intros c []].
    intros t1 t2 id name H; destruct t1; discriminate. }
  destruct (render_ok R reserve ar rank Hfresh Hnd Hclosed Hrank (length ar) root [] 0
              (mkContext [] hint0 noMeta) initial HG HI)
    as [[[out st] [Eo [I1 [I2 [I3 [I4 [I5 I6]]]]]]] | [He | Hu]];
    [left | right; left; exact He | right; right; exact Hu].
  cbn [snd] in *.
  assert (Ep : allPairs [] st = pairsOf (components st)) by (unfold allPairs; apply app_nil_r).
  rewrite Ep in I1, I2, I3, I5.
  exists out, st; split; [exact Eo |].
  split; [unfold pairsOf in I1; rewrite map_map in I1; exact I1 |].
  split; [unfold pairsOf in I2; rewrite map_map in I2; exact I2 |].
  split; [exact I3 | split; [exact I4 | split; [exact I5 | exact I6]]].
Qed.

Lemma render_cycles_terminate_and_share_witness :
  (exists out st,
      renderRoot docRenderers specReserve featuresArena "features" (NReference 0) = Ok (out, st) /\
      NoDup (map fst (components st)) /\
      NoDup (names (components st)) /\
      (forall id name, In (Expanded id name) (trace st) <-> In (id, name) (pairsOf (components st))) /\
      NoDup (expandedIds (trace st)) /\
      (forall t1 t2 id name, trace st = (t1 ++ Referenced id name :: t2)%list ->
         In (id, name) (pairsOf (components st)) /\ In (Expanded id name) t1) /\
      (forall c, In c (components st) -> Body docRenderers specReserve featuresArena c)) \/
  (exists e, renderRoot docRenderers specReserve featuresArena "features" (NReference 0)
             = RenderError e) \/
  (exists p k, renderRoot docRenderers specReserve featuresArena "features" (NReference 0)
               = UnsupportedSchemaError p k).
Proof.
  apply (render_cycles_terminate_and_share docRenderers specReserve featuresArena (fun _ => 0)
           "features" (NReference 0)).
  - exact specReserve_fresh.
  - constructor; [intros [] | constructor].
  - intros id body k [H | []] Hk; injection H as <- <-; vm_compute in Hk.
    destruct Hk as [<- | []]; left; reflexivity.
  - intros id body k [H | []] Hk; injection H as <- <-; vm_compute in Hk; destruct Hk.
  - intros k Hk; vm_compute in Hk; destruct Hk as [<- | []]; left; reflexivity.
Defined.

(** With the document renderers and the artifact's names, the walker
    reproduces the positive response schema of [GET /v1/user/retrieve]
    (the first occurrence of [features] expanded inline) and the
    artifact's components.schemas, and its trace shows the inner
    occurrence as a reference. *)
Lemma retrieve_render_matches_document :
  exists out st,
    renderRoot docRenderers digestReserve featuresArena "retrieve" retrieve200 = Ok (out, st) /\
    ExampleDoc.at_ json200 ExampleDoc.document = Some out /\
    ExampleDoc.at_ [ExampleDoc.K "components"; ExampleDoc.K "schemas"] ExampleDoc.document =
      Some (ExampleDoc.YMap (map (fun c => (fst (snd c), snd (snd c))) (components st))) /\
    trace st = [Expanded 0 ExampleDoc.componentName; Referenced 0 ExampleDoc.componentName].
Proof.
  eexists; eexists; split; [vm_compute; reflexivity |].
  split; [vm_compute; reflexivity | split; vm_compute; reflexivity].
Qed.

(** A cycle through unions and references alone is refused. *)
Lemma alias_cycle_refused :
  renderRoot docRenderers specReserve aliasArena "alias" (NReference 0) = UnrenderableCycleError 0.
Proof. vm_compute; reflexivity. Qed.

End WalkerResult.

(** ** Further properties of [errors.ts] *)
Section ErrorExtras.
Import ErrorClasses.

(** Every error of [errors.ts] is an [Error]; exactly the input/output
    schema errors ([IOSchemaError] and its two subclasses) are
    [instanceof IOSchemaError]. *)
Theorem instanceOf_hierarchy : forall e : Errors.error,
    instanceOf e CError = true /\
    (instanceOf e CIOSchemaError = true <->
     In (Errors.name e) ["IOSchemaError"; "OutputValidationError"; "InputValidationError"]).
Proof.
  intro e; destruct e; vm_compute; split; try reflexivity; split; intro H;
    try discriminate; try reflexivity; try tauto;
    repeat (destruct H as [H | H]; [discriminate |]); destruct H.
Qed.

(** The [name] of an error determines its class: no two classes of
    [errors.ts] share a name. *)
Theorem name_determines_class : forall e1 e2 : Errors.error,
    Errors.name e1 = Errors.name e2 -> classOf e1 = classOf e2.
Proof. intros [] []; simpl; intro H; (reflexivity || discriminate). Qed.

Lemma name_determines_class_witness :
  Errors.name (Errors.InputValidationError "expected string") =
    Errors.name (Errors.InputValidationError "expected number") /\
  classOf (Errors.InputValidationError "expected string") =
    classOf (Errors.InputValidationError "expected number").
Proof. split; [reflexivity | apply name_determines_class; reflexivity]. Defined.

Lemma prefix_app_self : forall n b : string, String.prefix n (n ++ b) = true.
Proof.
  induction n as [| c n IH]; intro b; [destruct b; reflexivity |].
  simpl; destruct (ascii_dec c c) as [_ | C]; [apply IH | contradiction].
Qed.

Lemma includes_of_prefix : forall n h : string,
    String.prefix n h = true -> str_includes n h = true.
Proof. intros n [| c h] H; cbn [str_includes]; rewrite H; reflexivity. Qed.

Lemma includes_app_mid : forall n a b : string, str_includes n (a ++ n ++ b) = true.
Proof.
  intros n a b; induction a as [| c a IH].
  - change (EmptyString ++ n ++ b) with (n ++ b); apply includes_of_prefix, prefix_app_self.
  - change ((String c a) ++ n ++ b) with (String c (a ++ n ++ b)); cbn [str_includes].
    destruct (String.prefix n (String c (a ++ n ++ b))); [reflexivity | exact IH].
Qed.

Lemma str_app_assoc : forall a b c : string, a ++ b ++ c = (a ++ b) ++ c.
Proof. induction a as [| x a IH]; intros b c; simpl; [reflexivity | now rewrite IH]. Qed.

Lemma str_app_nil_r : forall a : string, a ++ "" = a.
Proof. induction a as [| x a IH]; simpl; [reflexivity | now rewrite IH]. Qed.

Lemma join_split : forall sep ms m, In m ms ->
    exists pre suf, join sep ms = pre ++ m ++ suf.
Proof.
  intros sep ms m; induction ms as [| x ms IH]; [intros [] |].
  intros [-> | H].
  - destruct ms as [| y ms].
    + exists "", ""; simpl; rewrite str_app_nil_r; reflexivity.
    + exists "", (sep ++ join sep (y :: ms)); reflexivity.
  - destruct (IH H) as (pre & suf & E).
    destruct ms as [| y ms]; [destruct H |].
    exists (x ++ sep ++ pre), suf.
    change (join sep (x :: y :: ms)) with (x ++ sep ++ join sep (y :: ms)).
    rewrite E, !str_app_assoc; reflexivity.
Qed.

(** [new MissingPeerError(module)]: for one module the message is
    "Missing peer dependency: <module>. Please install it to use the
    feature."; for a list it announces "one of the following peer
    dependencies", lists the modules separated by " | ", and names
    every one of them. *)
Theorem missingPeer_message : forall (m : string) (ms : list string),
    Errors.name (Errors.newMissingPeerError (Errors.PeerOne m)) = "MissingPeerError" /\
    Errors.message (Errors.newMissingPeerError (Errors.PeerOne m)) =
      "Missing peer dependency: " ++ m ++ ". Please install it to use the feature." /\
    Errors.message (Errors.newMissingPeerError (Errors.PeerMany ms)) =
      "Missing one of the following peer dependencies: " ++ join " | " ms ++
      ". Please install it to use the feature." /\
    (forall x, In x ms ->
       str_includes x (Errors.message (Errors.newMissingPeerError (Errors.PeerMany ms))) = true).
Proof.
  intros m ms; split; [reflexivity | split; [reflexivity | split; [reflexivity |]]].
  intros x Hx; destruct (join_split " | " ms x Hx) as (pre & suf & E).
  assert (Hm : Errors.message (Errors.newMissingPeerError (Errors.PeerMany ms)) =
               ("Missing one of the following peer dependencies: " ++ pre) ++ x ++
               (suf ++ ". Please install it to use the feature.")).
  { cbn [Errors.message Errors.newMissingPeerError]; rewrite E, !str_app_assoc; reflexivity. }
  rewrite Hm; apply includes_app_mid.
Qed.

End ErrorExtras.

(** ** Further properties of the [Client] constructor *)
Section ClientExtras.
Import Client Artifact.

Lemma agg_fold_blocks : forall es c,
    agg (fold_left endpointCb es c) = (agg c ++ flat_map routeDecls es)%list.
Proof.
  induction es as [| [[ep p] m] es IH]; intro c; cbn [fold_left flat_map].
  - rewrite app_nil_r; reflexivity.
  - rewrite IH, agg_endpointCb; simpl; rewrite <- !app_assoc; reflexivity.
Qed.

(** The declarations of the generated client, in order: for each route
    in routing order (an [options] route included) the native enums of
    its input schema, those of its response schema, its input type alias
    and its response type alias; then the eight aggregate declarations
    [Path], [Method], [MethodPath], [Input], [Response], [jsonEndpoints],
    [Provider] and the client class. *)
Theorem agg_route_blocks : forall es,
    agg (build es) = (flat_map routeDecls es ++ finalNodes (cycle es))%list.
Proof. intro es; rewrite build_agg; unfold cycle; rewrite agg_fold_blocks; reflexivity. Qed.

Lemma pathStep_fold : forall es ps,
    fold_left pathStep es ps = (ps ++ map entryPath (filter notOptions es))%list.
Proof.
  induction es as [| [[ep p] m] es IH]; intro ps; cbn [fold_left filter].
  - rewrite app_nil_r; reflexivity.
  - rewrite IH; unfold pathStep, notOptions; simpl.
    destruct (negb (method_eqb m Options)); simpl; [rewrite <- app_assoc |]; reflexivity.
Qed.

(** The [Path] union lists the path of every non-[options] route, in
    routing order and with repetitions: a path served by several methods
    appears once per method. *)
Theorem pathUnion_routes : forall es,
    pathUnion (build es) =
    Some (TUnion (map TLiteral (map entryPath (filter notOptions es)))).
Proof.
  intro es; rewrite pathUnion_build; unfold cycle; rewrite paths_fold, pathStep_fold.
  reflexivity.
Qed.

Lemma keys_obj_set : forall {V} k (v : V) o x,
    In x (map fst (obj_set k v o)) <-> x = k \/ In x (map fst o).
Proof.
  intros V k v o x; induction o as [| [k' v'] o IH]; simpl; [intuition congruence |].
  destruct (String.eqb k k') eqn:E; simpl.
  - apply String.eqb_eq in E; subst k'; intuition congruence.
  - rewrite IH; intuition congruence.
Qed.

Lemma nodup_obj_set : forall {V} k (v : V) o,
    NoDup (map fst o) -> NoDup (map fst (obj_set k v o)).
Proof.
  intros V k v o; induction o as [| [k' v'] o IH]; simpl; intro H.
  - constructor; [intros [] | constructor].
  - inversion H as [| x l Hx Hnd]; subst.
    destruct (String.eqb k k') eqn:E; simpl.
    + apply String.eqb_eq in E; subst k'; constructor; assumption.
    + constructor; [| apply IH; exact Hnd].
      rewrite keys_obj_set; intros [Heq | Hin]; [| contradiction].
      subst; rewrite String.eqb_refl in E; discriminate.
Qed.

Lemma in_obj_set : forall {V} k (v : V) o kv,
    In kv (obj_set k v o) -> kv = (k, v) \/ In kv o.
Proof.
  intros V k v o kv; induction o as [| [k' v'] o IH]; simpl.
  - intros [<- | []]; left; reflexivity.
  - destruct (String.eqb k k'); simpl; intros [H | H]; auto.
    destruct (IH H); auto.
Qed.

Lemma regStep_nodup : forall es r,
    NoDup (map fst r) -> NoDup (map fst (fold_left regStep es r)).
Proof.
  induction es as [| [[ep p] m] es IH]; intros r H; [exact H |].
  cbn [fold_left]; apply IH; unfold regStep.
  destruct (negb (method_eqb m Options)); [apply nodup_obj_set |]; exact H.
Qed.

Lemma regStep_keys_mono : forall es r k,
    In k (map fst r) -> In k (map fst (fold_left regStep es r)).
Proof.
  induction es as [| [[ep p] m] es IH]; intros r k H; [exact H |].
  cbn [fold_left]; apply IH; unfold regStep.
  destruct (negb (method_eqb m Options)); [rewrite keys_obj_set; right |]; exact H.
Qed.

Lemma regStep_keys_route : forall es r ep p m,
    In (ep, p, m) es -> m <> Options -> In (methodPath m p) (map fst (fold_left regStep es r)).
Proof.
  induction es as [| [[ep' p'] m'] es IH]; intros r ep p m Hin Hm; [destruct Hin |].
  destruct Hin as [Heq | Hin]; cbn [fold_left].
  - inversion Heq; subst; apply regStep_keys_mono; unfold regStep.
    destruct (method_eqb m Options) eqn:E; [apply method_eqb_Options in E; contradiction |].
    simpl; rewrite keys_obj_set; left; reflexivity.
  - exact (IH _ ep p m Hin Hm).
Qed.

Lemma regStep_entries : forall es r k v,
    In (k, v) (fold_left regStep es r) ->
    In (k, v) r \/
    exists ep p m, In (ep, p, m) es /\ m <> Options /\ k = methodPath m p /\ v = regValue ep p m.
Proof.
  induction es as [| [[ep p] m] es IH]; intros r k v H; [left; exact H |].
  cbn [fold_left] in H; apply IH in H.
  destruct H as [H | (ep2 & p2 & m2 & Hin & Hm & Hk & Hv)].
  - unfold regStep in H.
    destruct (method_eqb m Options) eqn:E; simpl in H; [left; exact H |].
    apply in_obj_set in H; destruct H as [H | H]; [| left; exact H].
    inversion H; subst; right; exists ep, p, m; split; [left; reflexivity |].
    split; [intro; subst; discriminate | split; reflexivity].
  - right; exists ep2, p2, m2; split; [right; exact Hin | auto].
Qed.

Lemma in_project : forall (f : reg_entry -> string) (r : list (string * reg_entry)) k v,
    In (k, v) (map (fun '(k, v) => (k, f v)) r) -> exists rv, In (k, rv) r /\ v = f rv.
Proof.
  intros f r k v H; apply in_map_iff in H; destruct H as ([k' rv] & Heq & Hin).
  inversion Heq; subst; exists rv; auto.
Qed.


(** The [Input] and [Response] interfaces have the same property keys, in
    the same order and without duplicates, and these keys are exactly the
    strings "<method> <path>" of the non-[options] routes. *)
Theorem interfaces_keys : forall es, exists ins outs,
    inputInterface (build es) = Some ins /\
    responseInterface (build es) = Some outs /\
    map fst ins = map fst outs /\
    NoDup (map fst ins) /\
    (forall k, In k (map fst ins) <->
               exists ep p m, In (ep, p, m) es /\ m <> Options /\ k = methodPath m p).
Proof.
  intro es; rewrite inputInterface_build, responseInterface_build.
  do 2 eexists; split; [reflexivity | split; [reflexivity |]].
  rewrite !map_fst_project; split; [reflexivity |].
  unfold cycle; rewrite registry_fold; split.
  - apply regStep_nodup; constructor.
  - intro k; split.
    + intro H; apply regStep_keys in H; destruct H as [[] | H]; exact H.
    + intros (ep & p & m & Hin & Hm & ->); exact (regStep_keys_route es [] ep p m Hin Hm).
Qed.

(** Each property of [Input] maps the key "<method> <path>" of a
    non-[options] route to that route's input alias name
    [cleanId(path, method, "input")], each property of [Response] to its
    response alias name; the route's path is in the [Path] union. *)
Theorem interfaces_values : forall es, exists ins outs ts,
    inputInterface (build es) = Some ins /\
    responseInterface (build es) = Some outs /\
    pathUnion (build es) = Some (TUnion ts) /\
    (forall k v, In (k, v) ins -> exists ep p m,
        In (ep, p, m) es /\ m <> Options /\ k = methodPath m p /\
        v = cleanId p (method_str m) "input" /\ In (TLiteral p) ts) /\
    (forall k v, In (k, v) outs -> exists ep p m,
        In (ep, p, m) es /\ m <> Options /\ k = methodPath m p /\
        v = cleanId p (method_str m) "response" /\ In (TLiteral p) ts).
Proof.
  intro es; rewrite inputInterface_build, responseInterface_build, pathUnion_build.
  do 3 eexists; split; [reflexivity | split; [reflexivity | split; [reflexivity |]]].
  assert (Hp : forall ep p m, In (ep, p, m) es -> m <> Options ->
                 In (TLiteral p) (map TLiteral (paths (cycle es)))).
  { intros ep p m Hin Hm; rewrite in_literals; unfold cycle; rewrite paths_fold, pathStep_in.
    right; exists ep, m; auto. }
  split; intros k v H; apply in_project in H; destruct H as (rv & Hin & ->);
    unfold cycle in Hin; rewrite registry_fold in Hin;
    apply regStep_entries in Hin; destruct Hin as [[] | (ep & p & m & Hin & Hm & Hk & Hv)];
    subst; exists ep, p, m; repeat split; auto; exact (Hp ep p m Hin Hm).
Qed.

Lemma nodup_quoted : forall ks, NoDup ks -> NoDup (map (fun k => dq ++ k ++ dq) ks).
Proof.
  induction ks as [| k ks IH]; intro H; simpl; [constructor |].
  inversion H as [| x l Hx Hnd]; subst; constructor; [| exact (IH Hnd)].
  intro Hin; apply in_map_iff in Hin; destruct Hin as (k' & Heq & Hin).
  apply quoted_inj in Heq; subst; contradiction.
Qed.

(** Every property of [jsonEndpoints] is [true] and is a key of the
    [Input] interface in double quotes; no key is listed twice, and the
    keys follow the order of [Input]. *)
Theorem jsonEndpoints_keys : forall es, exists js ins,
    jsonEndpoints (build es) = Some js /\
    inputInterface (build es) = Some ins /\
    NoDup (map fst js) /\
    exists sub, map fst js = map (fun k => dq ++ k ++ dq) sub /\
                sub = filter (fun k => isJsonKey (registry (cycle es)) k) (map fst ins) /\
                Forall (fun kb => snd kb = true) js.
Proof.
  intro es; rewrite jsonEndpoints_build, inputInterface_build.
  do 2 eexists; split; [reflexivity | split; [reflexivity |]].
  rewrite map_fst_project.
  assert (Hm : forall ks : list string,
             map fst (map (fun k => (dq ++ k ++ dq, true)) ks) = map (fun k => dq ++ k ++ dq) ks).
  { intro ks; rewrite map_map; reflexivity. }
  split.
  - rewrite Hm; apply nodup_quoted, NoDup_filter.
    unfold cycle; rewrite registry_fold; apply regStep_nodup; constructor.
  - eexists; split; [apply Hm | split; [reflexivity |]].
    apply Forall_forall; intros kb Hkb; apply in_map_iff in Hkb.
    destruct Hkb as (k & <- & _); reflexivity.
Qed.

(** With an empty routing the client still has the eight aggregate
    declarations: [Path] is the empty union, [Input], [Response] and
    [jsonEndpoints] have no property, [Method] keeps its five methods. *)
Theorem empty_routing_client :
    agg (build []) = finalNodes fresh /\
    pathUnion (build []) = Some (TUnion []) /\
    methodUnion (build []) = Some (TUnion (map (fun m => TLiteral (method_str m)) methodList)) /\
    inputInterface (build []) = Some [] /\
    responseInterface (build []) = Some [] /\
    jsonEndpoints (build []) = Some [].
Proof. repeat split; reflexivity. Qed.

End ClientExtras.
